(** * The KORE binary pattern codec of the Python bindings (src/bindings/python/ast.cpp)

    The bindings file is the only source file of this development.  It defines
    [read_pattern_from_file] (the streaming reader behind [Pattern.read_from])
    and the Python wrappers around the serializer, the whole-buffer
    deserializer and the pattern builders.  The C++ serializer, deserializer,
    substitution and builders it calls live in headers that are not part of
    [src/]; they are modelled from the spec, and each such definition says so in
    its doc comment. *)

From Stdlib Require Import Strings.Byte String List Arith NArith Lia Bool.
From stdpp Require Import base gmap.
Import ListNotations.
Open Scope N_scope.
Set Warnings "-register-all".

(* ------------------------------------------------------------------------- *)
(** ** Bytes *)

Definition bytes := list byte.

Definition byte_eqb (a b : byte) : bool := N.eqb (Byte.to_N a) (Byte.to_N b).

Fixpoint bytes_eqb (xs ys : bytes) : bool :=
  match xs, ys with
  | [], [] => true
  | x :: xs', y :: ys' => byte_eqb x y && bytes_eqb xs' ys'
  | _, _ => false
  end.

(** The low byte of [n]. *)
Definition byte_of_N (n : N) : byte :=
  match Byte.of_N (n mod 256) with Some b => b | None => x00 end.

(** [k] bytes of [n], least significant first (the width and byte order the
    model chooses for every fixed-width field, as the spec asks it to document). *)
Fixpoint le_encode (k : nat) (n : N) : bytes :=
  match k with
  | O => []
  | S k' => byte_of_N n :: le_encode k' (n / 256)
  end.

Fixpoint le_decode (bs : bytes) : N :=
  match bs with
  | [] => 0
  | b :: bs' => Byte.to_N b + 256 * le_decode bs'
  end.

(* ------------------------------------------------------------------------- *)
(** ** Errors *)

(** The exceptions that reach Python.  [read_pattern_from_file] throws
    [py::type_error] and three [std::invalid_argument]s, told apart by their
    messages; the spec calls the latter [FormatError] (bad magic),
    [UnsupportedVersionError] and [MissingSizeError].  [FormatError] and
    [ArityError] are the errors the spec gives the decoders. *)
Inductive error :=
| TypeError (msg : string)
| InvalidArgument (msg : string)
| FormatError (msg : string)
| ArityError.

Inductive result (A : Type) :=
| Ok (a : A)
| Err (e : error).
Arguments Ok {A} a.
Arguments Err {A} e.

Definition bind {A B} (m : result A) (k : A -> result B) : result B :=
  match m with Ok a => k a | Err e => Err e end.

Notation "'let*' p := m 'in' k" := (bind m (fun p => k))
  (at level 200, p pattern, m at level 100, k at level 200).

Definition bad_header_msg : string :=
  "Data does not begin with the binary KORE header bytes".
Definition old_version_msg : string :=
  "Pattern read from a file-like object must use version 1.2.0 or newer".
Definition missing_size_msg : string :=
  "Pattern size must be set explicitly when reading from a file-like object".
Definition not_file_like_msg : string :=
  "Argument to read_from is not a file-like object".

(* ------------------------------------------------------------------------- *)
(** ** Framing: magic header, version, size *)

(** [serializer::magic_header]: the five bytes 0x7f 'K' 'O' 'R' 'E'. *)
Definition magic_header : bytes := [x7f; x4b; x4f; x52; x45].

Record binary_version := mk_version {
  v_major : N;
  v_minor : N;
  v_patch : N
}.

(** [binary_version] compares its three components lexicographically. *)
Definition version_ltb (a b : binary_version) : bool :=
  (v_major a <? v_major b)
  || ((v_major a =? v_major b)
      && ((v_minor a <? v_minor b)
          || ((v_minor a =? v_minor b) && (v_patch a <? v_patch b)))).

Definition version_1_2_0 : binary_version := mk_version 1 2 0.

(** The version the serializer writes. *)
Definition current_version : binary_version := version_1_2_0.

Definition version_bytes (v : binary_version) : bytes :=
  le_encode 2 (v_major v) ++ le_encode 2 (v_minor v) ++ le_encode 2 (v_patch v).

(** Modelled from the spec: [kllvm::detail::read_version] (not in src/).
    Three 2-byte components; fewer than six bytes is a "truncated version"
    [FormatError]. *)
Definition read_version (bs : bytes) : result (binary_version * bytes) :=
  match bs with
  | a0 :: a1 :: b0 :: b1 :: c0 :: c1 :: rest =>
      Ok (mk_version (le_decode [a0; a1]) (le_decode [b0; b1])
                     (le_decode [c0; c1]), rest)
  | _ => Err (FormatError "truncated version")
  end.

(** Modelled from the spec: [kllvm::detail::read_pattern_size_unchecked] (not
    in src/).  The 8-byte size field, decoded without a length check of its
    own. *)
Definition read_pattern_size_unchecked (bs : bytes) : N * bytes :=
  (le_decode (firstn 8 bs), skipn 8 bs).

(** [std::equal(header.begin(), header.end(), ref_header.begin())]: compares
    the bytes of [header] with the first [length header] bytes of the
    reference.  A header longer than the reference would read past its end in
    C++; the model answers false there. *)
Fixpoint std_equal (header ref : bytes) : bool :=
  match header, ref with
  | [], _ => true
  | h :: header', r :: ref' => byte_eqb h r && std_equal header' ref'
  | _ :: _, [] => false
  end.

(* ------------------------------------------------------------------------- *)
(** ** Data model (the classes bound in [bind_ast]) *)

Inductive sort_category :=
| SC_Uncomputed | SC_Map | SC_RangeMap | SC_List | SC_Set | SC_Int | SC_Float
| SC_StringBuffer | SC_Bool | SC_Symbol | SC_Variable | SC_MInt.

Record value_type := mk_value_type {
  vt_cat : sort_category;
  vt_bits : N
}.

Inductive sort :=
| SortVariable (name : string)
| CompositeSort (name : string) (cat : value_type) (arguments : list sort).

Record symbol := mk_symbol {
  sym_name : string;
  sym_arguments : list sort;
  sym_formal_arguments : list sort;
  sym_sort : option sort
}.

Inductive pattern :=
| CompositePattern (constructor : symbol) (arguments : list pattern)
| VariablePattern (name : string) (s : sort)
| StringPattern (contents : string).

(** The declared arity of a symbol: its formal (declared) argument sorts. *)
Definition arity (c : symbol) : nat := length (sym_formal_arguments c).

(* ------------------------------------------------------------------------- *)
(** ** Body encoding

    Modelled from the spec: section 4.1 ([KOREPattern::serialize_to] is not in
    src/).  One tag byte per node kind, names as a length-prefixed byte string,
    a child count, then the children in order.  Every count and length is an
    8-byte field. *)

Definition u64 (n : N) : bytes := le_encode 8 n.
Definition u64_len {A} (l : list A) : bytes := u64 (N.of_nat (length l)).

Definition enc_str (s : string) : bytes :=
  u64 (N.of_nat (length (list_byte_of_string s))) ++ list_byte_of_string s.

Definition cat_code (c : sort_category) : N :=
  match c with
  | SC_Uncomputed => 0 | SC_Map => 1 | SC_RangeMap => 2 | SC_List => 3
  | SC_Set => 4 | SC_Int => 5 | SC_Float => 6 | SC_StringBuffer => 7
  | SC_Bool => 8 | SC_Symbol => 9 | SC_Variable => 10 | SC_MInt => 11
  end.

Definition cat_of_code (n : N) : option sort_category :=
  match n with
  | 0 => Some SC_Uncomputed | 1 => Some SC_Map | 2 => Some SC_RangeMap
  | 3 => Some SC_List | 4 => Some SC_Set | 5 => Some SC_Int | 6 => Some SC_Float
  | 7 => Some SC_StringBuffer | 8 => Some SC_Bool | 9 => Some SC_Symbol
  | 10 => Some SC_Variable | 11 => Some SC_MInt | _ => None
  end.

Definition enc_value_type (vt : value_type) : bytes :=
  byte_of_N (cat_code (vt_cat vt)) :: u64 (vt_bits vt).

(** Tags: 0x08 sort variable, 0x09 composite sort, 0x04 composite pattern,
    0x05 string pattern, 0x07 variable pattern, 0x00 / 0x01 absent / present
    return sort. *)
Fixpoint enc_sort (s : sort) : bytes :=
  match s with
  | SortVariable n => x08 :: enc_str n
  | CompositeSort n vt args =>
      x09 :: enc_str n ++ enc_value_type vt ++ u64_len args
          ++ flat_map enc_sort args
  end.

Definition enc_sorts (l : list sort) : bytes := u64_len l ++ flat_map enc_sort l.

Definition enc_symbol (c : symbol) : bytes :=
  enc_str (sym_name c) ++ enc_sorts (sym_arguments c)
  ++ enc_sorts (sym_formal_arguments c)
  ++ match sym_sort c with None => [x00] | Some s => x01 :: enc_sort s end.

(** Modelled from the spec: the body encoding of a pattern (section 4.1). *)
Fixpoint enc_pattern (p : pattern) : bytes :=
  match p with
  | CompositePattern c args =>
      x04 :: enc_symbol c ++ u64_len args ++ flat_map enc_pattern args
  | StringPattern s => x05 :: enc_str s
  | VariablePattern n s => x07 :: enc_str n ++ enc_sort s
  end.

(* ------------------------------------------------------------------------- *)
(** ** Body decoding

    Modelled from the spec: section 4.2 ([kllvm::detail::read] is not in
    src/).  The inverse grammar, failing with [FormatError] on a truncated
    input or an invalid tag, and with [ArityError] on a composite pattern whose
    child count differs from its symbol's declared arity.  The recursion is
    bounded by a fuel argument; the callers give it one more than the input
    length, and every node takes at least one byte. *)

Definition truncated {A} : result A := Err (FormatError "truncated input").

Definition dec_u64 (bs : bytes) : result (N * bytes) :=
  if Nat.ltb (length bs) 8 then truncated
  else Ok (le_decode (firstn 8 bs), skipn 8 bs).

Definition take_exact (n : N) (bs : bytes) : result (bytes * bytes) :=
  if N.of_nat (length bs) <? n then truncated
  else Ok (firstn (N.to_nat n) bs, skipn (N.to_nat n) bs).

Definition dec_str (bs : bytes) : result (string * bytes) :=
  let* (n, r) := dec_u64 bs in
  let* (s, r') := take_exact n r in
  Ok (string_of_list_byte s, r').

Definition dec_value_type (bs : bytes) : result (value_type * bytes) :=
  match bs with
  | b :: r =>
      match cat_of_code (Byte.to_N b) with
      | None => Err (FormatError "invalid sort category")
      | Some c => let* (bits, r') := dec_u64 r in Ok (mk_value_type c bits, r')
      end
  | [] => truncated
  end.

Fixpoint dec_many {A} (d : bytes -> result (A * bytes)) (k : nat) (bs : bytes)
  : result (list A * bytes) :=
  match k with
  | O => Ok ([], bs)
  | S k' =>
      let* (a, r) := d bs in
      let* (l, r') := dec_many d k' r in
      Ok (a :: l, r')
  end.

Fixpoint dec_sort (fuel : nat) (bs : bytes) : result (sort * bytes) :=
  match fuel with
  | O => Err (FormatError "nesting exceeds input")
  | S f =>
      match bs with
      | x08 :: r => let* (n, r1) := dec_str r in Ok (SortVariable n, r1)
      | x09 :: r =>
          let* (n, r1) := dec_str r in
          let* (vt, r2) := dec_value_type r1 in
          let* (k, r3) := dec_u64 r2 in
          let* (args, r4) := dec_many (dec_sort f) (N.to_nat k) r3 in
          Ok (CompositeSort n vt args, r4)
      | [] => truncated
      | _ => Err (FormatError "invalid sort tag")
      end
  end.

Definition dec_sorts (fuel : nat) (bs : bytes) : result (list sort * bytes) :=
  let* (k, r) := dec_u64 bs in dec_many (dec_sort fuel) (N.to_nat k) r.

Definition dec_symbol (fuel : nat) (bs : bytes) : result (symbol * bytes) :=
  let* (n, r1) := dec_str bs in
  let* (args, r2) := dec_sorts fuel r1 in
  let* (formals, r3) := dec_sorts fuel r2 in
  let* (ret, r4) :=
    match r3 with
    | x00 :: r => Ok (None, r)
    | x01 :: r => let* (s, r') := dec_sort fuel r in Ok (Some s, r')
    | [] => truncated
    | _ => Err (FormatError "invalid return sort tag")
    end in
  Ok (mk_symbol n args formals ret, r4).

(** Modelled from the spec: the body decoder of a pattern (section 4.2), with
    its arity check. *)
Fixpoint dec_pattern (fuel : nat) (bs : bytes) : result (pattern * bytes) :=
  match fuel with
  | O => Err (FormatError "nesting exceeds input")
  | S f =>
      match bs with
      | x04 :: r =>
          let* (c, r1) := dec_symbol f r in
          let* (k, r2) := dec_u64 r1 in
          if negb (Nat.eqb (N.to_nat k) (arity c)) then Err ArityError else
          let* (args, r3) := dec_many (dec_pattern f) (N.to_nat k) r2 in
          Ok (CompositePattern c args, r3)
      | x05 :: r => let* (s, r1) := dec_str r in Ok (StringPattern s, r1)
      | x07 :: r =>
          let* (n, r1) := dec_str r in
          let* (s, r2) := dec_sort f r1 in
          Ok (VariablePattern n s, r2)
      | [] => truncated
      | _ => Err (FormatError "invalid pattern tag")
      end
  end.

(** [kllvm::detail::read(begin, end, version)]: one pattern body that fills the
    whole slice.  The spec gives one body grammar, so [version] is unused. *)
Definition read_body (version : binary_version) (bs : bytes) : result pattern :=
  let* (p, r) := dec_pattern (S (length bs)) bs in
  match r with
  | [] => Ok p
  | _ :: _ => Err (FormatError "trailing bytes after pattern body")
  end.

(* ------------------------------------------------------------------------- *)
(** ** Serializer and whole-buffer deserializer *)

(** Modelled from the spec: the [serializer] class (not in src/).  A new
    serializer has written the magic header, the current version and a
    reserved 8-byte size field holding 0. *)
Record serializer := mk_serializer { ser_buffer : bytes }.

Definition new_serializer : serializer :=
  mk_serializer (magic_header ++ version_bytes current_version ++ u64 0).

(** [pattern.serialize_to(out)] appends the body encoding. *)
Definition serialize_to (p : pattern) (out : serializer) : serializer :=
  mk_serializer (ser_buffer out ++ enc_pattern p).

(** [out.correct_emitted_size()] back-patches the reserved field (bytes 11 to
    18) with the number of body bytes written after it. *)
Definition correct_emitted_size (out : serializer) : serializer :=
  let buf := ser_buffer out in
  mk_serializer (firstn 11 buf ++ u64 (N.of_nat (length buf - 19)) ++ skipn 19 buf).

Definition byte_string (out : serializer) : bytes := ser_buffer out.

(** [Pattern.serialize(emit_size=...)], source lines 289-301. *)
Definition Pattern_serialize (p : pattern) (emit_size : bool) : bytes :=
  let out := serialize_to p new_serializer in
  let out := if emit_size then correct_emitted_size out else out in
  byte_string out.

(** Modelled from the spec: the raw-term stripping of [deserialize_pattern]
    (not in src/).  The spec only says that an embedded raw-representation
    payload is decoded into its structured form; the model takes the K
    toolchain's raw-term wrapper [rawTerm{}(inj{..}(X))] at the root of the
    decoded pattern and replaces it by its payload [X]. *)
Definition strip_raw_term (p : pattern) : pattern :=
  match p with
  | CompositePattern c [CompositePattern i [x]] =>
      if String.eqb (sym_name c) "rawTerm" && String.eqb (sym_name i) "inj"
      then x else p
  | _ => p
  end.

(** The spec names unsupported versions as an error without listing them; the
    model reads every version up to the one the serializer writes. *)
Definition version_supported (v : binary_version) : bool :=
  negb (version_ltb current_version v).

(** Modelled from the spec: [deserialize_pattern] (section 4.2, not in src/).
    Magic header, version, then (from 1.2.0 on) the size field: a nonzero size
    bounds the body, zero leaves the rest of the buffer as the body. *)
Definition deserialize_pattern (bs : bytes) (strip : bool) : result pattern :=
  if negb (bytes_eqb (firstn 5 bs) magic_header)
  then Err (FormatError "bad magic header") else
  let* (version, r1) := read_version (skipn 5 bs) in
  if negb (version_supported version)
  then Err (FormatError "unsupported version") else
  let* body :=
    if version_ltb version version_1_2_0 then Ok r1 else
    let* (size, r2) := dec_u64 r1 in
    if size =? 0 then Ok r2 else
    let* (b, _) := take_exact size r2 in Ok b in
  let* p := read_body version body in
  Ok (if strip then strip_raw_term p else p).

(** [Pattern.deserialize(bytes, strip_raw_term=True)], source lines 302-310. *)
Definition Pattern_deserialize (bs : bytes) (strip_raw_term : bool) : result pattern :=
  deserialize_pattern bs strip_raw_term.

(* ------------------------------------------------------------------------- *)
(** ** The streaming reader [read_pattern_from_file] (source lines 73-113) *)

Section ReadFrom.

(** A Python object with a [read] method: its state, and the bytes that
    [py::bytes(read_attr(len))] returns for a request of [len] together with
    the state afterwards.  Nothing forces the answer to have [len] bytes.
    The model covers [read] methods that return a bytes object and raise
    nothing; an exception raised by [read], or the [py::type_error] that
    [py::bytes] raises on a non-bytes result (a text-mode file), propagates
    out of [read_from] in C++ and is outside the model. *)
Variable source : Type.
Variable read : source -> N -> bytes * source.

Inductive py_object :=
| NotFileLike
| FileLike (s : source).

Definition read_pattern_from_file (file_like : py_object)
  : result pattern * py_object :=
  match file_like with
  | NotFileLike => (Err (TypeError not_file_like_msg), NotFileLike)
  | FileLike s0 =>
      let (header, s1) := read s0 5 in
      if negb (std_equal header magic_header)
      then (Err (InvalidArgument bad_header_msg), FileLike s1) else
      let (version_bytes, s2) := read s1 6 in
      match read_version version_bytes with
      | Err e => (Err e, FileLike s2)
      | Ok (version, _) =>
          if version_ltb version version_1_2_0
          then (Err (InvalidArgument old_version_msg), FileLike s2) else
          let (size_bytes, s3) := read s2 8 in
          let size := fst (read_pattern_size_unchecked size_bytes) in
          if size =? 0
          then (Err (InvalidArgument missing_size_msg), FileLike s3) else
          let (pattern_bytes, s4) := read s3 size in
          (read_body version pattern_bytes, FileLike s4)
      end
  end.

End ReadFrom.

Arguments NotFileLike {source}.
Arguments FileLike {source} s.

(** A Python [io.BytesIO]: [read(n)] returns the next [n] bytes, or fewer at
    the end of the buffer, and moves the cursor past them.  Python raises
    [OverflowError] for a request of 2^63 or more (beyond [Py_ssize_t]); the
    model describes requests below that bound. *)
Record bytes_io := mk_bytes_io { bio_buf : bytes; bio_pos : nat }.

Definition bytes_io_read (s : bytes_io) (n : N) : bytes * bytes_io :=
  let chunk := firstn (N.to_nat n) (skipn (bio_pos s) (bio_buf s)) in
  (chunk, mk_bytes_io (bio_buf s) (bio_pos s + length chunk)).

Definition read_from_bytes_io (buf : bytes) : result pattern * py_object bytes_io :=
  read_pattern_from_file bytes_io bytes_io_read (FileLike (mk_bytes_io buf 0)).

(** A source that answers its successive [read] calls from a script of chunks,
    whatever length is requested (a pipe or socket may return short reads). *)
Definition script_read (s : list bytes) (_ : N) : bytes * list bytes :=
  match s with [] => ([], []) | c :: s' => (c, s') end.


(** The errors the body and version decoders raise. *)
Definition decoder_error (e : error) : Prop :=
  match e with FormatError _ | ArityError => True | _ => False end.

(** Every error [r] can carry satisfies [Q]. *)
Definition err_in {A} (Q : error -> Prop) (r : result A) : Prop :=
  forall e, r = Err e -> Q e.

(** A decoder [d'] reads what [d] reads from any longer input, leaving the extra
    bytes unread. *)
Definition dec_extends {A} (d d' : bytes -> result (A * bytes)) : Prop :=
  forall bs x r ys, d bs = Ok (x, r) -> d' (bs ++ ys) = Ok (x, r ++ ys).

(** Version components that fit the 2-byte fields of [version_bytes]. *)
Definition version_fits (v : binary_version) : bool :=
  (v_major v <? 65536) && (v_minor v <? 65536) && (v_patch v <? 65536).

(* ------------------------------------------------------------------------- *)
(** ** Pattern objects

    Python holds patterns as [std::shared_ptr<KOREPattern>] objects.  A
    composite pattern's argument vector holds pointers to its children, and
    [add_argument] grows it in place.  The heap maps locations to nodes;
    [next_loc] is the next free location. *)

Abbreviation loc := nat (only parsing).

Inductive node :=
| NComposite (constructor : symbol) (arguments : list loc)
| NVariable (name : string) (s : sort)
| NString (contents : string).

Record heap := mk_heap { cells : gmap loc node; next_loc : loc }.

Definition alloc (h : heap) (n : node) : loc * heap :=
  (next_loc h, mk_heap (<[next_loc h := n]> (cells h)) (S (next_loc h))).

(** Modelled from the spec: [KORECompositePattern::Create] (sections 4.4 and 7)
    and [addArgument] (not in src/), bound as [CompositePattern(symbol)] and
    [CompositePattern.add_argument].  The builder appends and validates
    nothing.  The method is only bound on composite patterns; on another node
    pybind11 rejects the call before it runs, and the model leaves the heap
    as it is. *)
Definition CompositePattern_create (h : heap) (c : symbol) : loc * heap :=
  alloc h (NComposite c []).

Definition add_argument (h : heap) (self arg : loc) : heap :=
  match cells h !! self with
  | Some (NComposite c args) =>
      mk_heap (<[self := NComposite c (args ++ [arg])]> (cells h)) (next_loc h)
  | _ => h
  end.

Fixpoint map_opt {A B} (f : A -> option B) (l : list A) : option (list B) :=
  match l with
  | [] => Some []
  | x :: l' =>
      match f x with
      | None => None
      | Some y => match map_opt f l' with None => None | Some ys => Some (y :: ys) end
      end
  end.

(** Threads the heap through a call on each element, in order. *)
Fixpoint map_heap {A} (g : heap -> A -> option (loc * heap)) (h : heap) (l : list A)
  : option (list loc * heap) :=
  match l with
  | [] => Some ([], h)
  | x :: l' =>
      match g h x with
      | None => None
      | Some (y, h1) =>
          match map_heap g h1 l' with
          | None => None
          | Some (ys, h2) => Some (y :: ys, h2)
          end
      end
  end.

(** The recursions over objects take a fuel bound: the C++ recursion follows
    a finite tree, and the theorems give more fuel than its height. *)
Fixpoint height (t : pattern) : nat :=
  match t with
  | CompositePattern _ args => S (list_max (map height args))
  | _ => 1%nat
  end.

(** Modelled from the spec: [serialize_to] (section 4.1) walking the object
    graph; it emits the body encoding of [enc_pattern]. *)
Fixpoint serialize_node (fuel : nat) (h : heap) (l : loc) : option bytes :=
  match fuel with
  | O => None
  | S f =>
      match cells h !! l with
      | Some (NComposite c args) =>
          match map_opt (serialize_node f h) args with
          | Some bodies => Some (x04 :: enc_symbol c ++ u64_len args ++ concat bodies)
          | None => None
          end
      | Some (NString s) => Some (x05 :: enc_str s)
      | Some (NVariable n s) => Some (x07 :: enc_str n ++ enc_sort s)
      | None => None
      end
  end.

(** [Pattern.serialize] on a pattern object, source lines 289-301. *)
Definition Pattern_serialize_obj (fuel : nat) (h : heap) (l : loc) (emit_size : bool)
  : option bytes :=
  match serialize_node fuel h l with
  | None => None
  | Some body =>
      let out := mk_serializer (ser_buffer new_serializer ++ body) in
      let out := if emit_size then correct_emitted_size out else out in
      Some (byte_string out)
  end.

(** Threads the heap through an allocation for each element, in order. *)
Fixpoint map_alloc {A} (g : heap -> A -> loc * heap) (h : heap) (l : list A)
  : list loc * heap :=
  match l with
  | [] => ([], h)
  | x :: l' =>
      let '(y, h1) := g h x in
      let '(ys, h2) := map_alloc g h1 l' in (y :: ys, h2)
  end.

(** Allocates a tree as new objects, children first. *)
Fixpoint alloc_tree (h : heap) (t : pattern) : loc * heap :=
  match t with
  | CompositePattern c args =>
      let '(ls, h1) := map_alloc alloc_tree h args in alloc h1 (NComposite c ls)
  | VariablePattern n s => alloc h (NVariable n s)
  | StringPattern s => alloc h (NString s)
  end.

(** Substitution maps: a Python dict from variable names to patterns; the
    first binding of a name is the one used. *)
Fixpoint lookup_subst (m : list (string * pattern)) (x : string) : option pattern :=
  match m with
  | [] => None
  | (y, t) :: m' => if String.eqb x y then Some t else lookup_subst m' x
  end.

Section Substitute.

(** The capture rule, injected as the spec asks: [binds c x] holds when the
    construct headed by [c] binds [x] in its arguments. *)
Variable binds : symbol -> string -> bool.

Definition remove_bound (c : symbol) (m : list (string * pattern))
  : list (string * pattern) :=
  filter (fun '(x, _) => negb (binds c x)) m.

(** Modelled from the spec: [KOREPattern::substitute] (section 3, not in
    src/), returning a new tree. *)
Fixpoint substitute_node (fuel : nat) (m : list (string * pattern)) (h : heap)
  (l : loc) : option (loc * heap) :=
  match fuel with
  | O => None
  | S f =>
      match cells h !! l with
      | Some (NVariable x s) =>
          match lookup_subst m x with
          | Some t => Some (alloc_tree h t)
          | None => Some (alloc h (NVariable x s))
          end
      | Some (NString s) => Some (alloc h (NString s))
      | Some (NComposite c args) =>
          match map_heap (fun h' a => substitute_node f (remove_bound c m) h' a) h args with
          | Some (ls, h1) => Some (alloc h1 (NComposite c ls))
          | None => None
          end
      | None => None
      end
  end.

(** The same substitution on trees. *)
Fixpoint psubst (m : list (string * pattern)) (t : pattern) : pattern :=
  match t with
  | VariablePattern x _ =>
      match lookup_subst m x with Some u => u | None => t end
  | StringPattern _ => t
  | CompositePattern c args =>
      CompositePattern c (map (psubst (remove_bound c m)) args)
  end.

End Substitute.

Inductive assoc := LeftAssoc | RightAssoc.

Section Desugar.

(** Which applications are right- or left-associative list-like ones,
    injected: the spec leaves the classification to the symbol. *)
Variable assoc_of : symbol -> option assoc.

(** [c(a1, c(a2, ... c(an-1, an)))] *)
Fixpoint right_nest (c : symbol) (h : heap) (a : loc) (rest : list loc) : loc * heap :=
  match rest with
  | [] => (a, h)
  | b :: rest' =>
      let '(r, h1) := right_nest c h b rest' in alloc h1 (NComposite c [a; r])
  end.

(** [c(... c(c(a1, a2), a3) ..., an)] *)
Fixpoint left_nest (c : symbol) (h : heap) (acc : loc) (rest : list loc) : loc * heap :=
  match rest with
  | [] => (acc, h)
  | b :: rest' =>
      let '(n, h1) := alloc h (NComposite c [acc; b]) in left_nest c h1 n rest'
  end.

(** Modelled from the spec: [desugarAssociative] (section 3, not in src/),
    expanding associative list-like applications into nested binary ones
    and returning a new tree. *)
Fixpoint desugar_node (fuel : nat) (h : heap) (l : loc) : option (loc * heap) :=
  match fuel with
  | O => None
  | S f =>
      match cells h !! l with
      | Some (NComposite c args) =>
          match map_heap (desugar_node f) h args with
          | Some (ls, h1) =>
              match assoc_of c, ls with
              | Some RightAssoc, a :: ((_ :: _) as rest) => Some (right_nest c h1 a rest)
              | Some LeftAssoc, a :: ((_ :: _) as rest) => Some (left_nest c h1 a rest)
              | _, _ => Some (alloc h1 (NComposite c ls))
              end
          | None => None
          end
      | Some (NVariable x s) => Some (alloc h (NVariable x s))
      | Some (NString s) => Some (alloc h (NString s))
      | None => None
      end
  end.

Fixpoint pright (c : symbol) (a : pattern) (rest : list pattern) : pattern :=
  match rest with
  | [] => a
  | b :: rest' => CompositePattern c [a; pright c b rest']
  end.

Fixpoint pleft (c : symbol) (acc : pattern) (rest : list pattern) : pattern :=
  match rest with
  | [] => acc
  | b :: rest' => pleft c (CompositePattern c [acc; b]) rest'
  end.

(** The same expansion on trees. *)
Fixpoint pdesugar (t : pattern) : pattern :=
  match t with
  | CompositePattern c args =>
      let ts := map pdesugar args in
      match assoc_of c, ts with
      | Some RightAssoc, a :: ((_ :: _) as rest) => pright c a rest
      | Some LeftAssoc, a :: ((_ :: _) as rest) => pleft c a rest
      | _, _ => CompositePattern c ts
      end
  | _ => t
  end.

End Desugar.

(** [repr_at P h l t]: the object at [l] is the tree [t], and every object of
    it sits at a location satisfying [P]. *)
Inductive repr_at (P : loc -> Prop) (h : heap) : loc -> pattern -> Prop :=
| repr_composite l c ls ts :
    P l -> cells h !! l = Some (NComposite c ls) -> repr_list_at P h ls ts ->
    repr_at P h l (CompositePattern c ts)
| repr_variable l n s :
    P l -> cells h !! l = Some (NVariable n s) -> repr_at P h l (VariablePattern n s)
| repr_string l s :
    P l -> cells h !! l = Some (NString s) -> repr_at P h l (StringPattern s)
with repr_list_at (P : loc -> Prop) (h : heap) : list loc -> list pattern -> Prop :=
| repr_nil : repr_list_at P h [] []
| repr_cons l ls t ts :
    repr_at P h l t -> repr_list_at P h ls ts -> repr_list_at P h (l :: ls) (t :: ts).

(** Mutual induction over [repr_at] and [repr_list_at]. *)
Scheme repr_at_mut := Induction for repr_at Sort Prop
with repr_list_at_mut := Induction for repr_list_at Sort Prop.

Definition repr (h : heap) (l : loc) (t : pattern) : Prop := repr_at (fun _ => True) h l t.

(** Every object of the heap sits below [next_loc]. *)
Definition heap_wf (h : heap) : Prop :=
  map_Forall (fun x _ => (x < next_loc h)%nat) (cells h).

(** [h'] keeps every object of [h] as it was. *)
Definition extends (h h' : heap) : Prop :=
  (next_loc h <= next_loc h')%nat /\
  forall x, (x < next_loc h)%nat -> cells h' !! x = cells h !! x.

(** What a procedure that builds a new tree guarantees: it succeeds, keeps
    every existing object, and every object of its result is new. *)
Definition builds_new (Inv : heap -> Prop) (run : heap -> option (loc * heap))
  (t : pattern) : Prop :=
  forall h, heap_wf h -> Inv h ->
  exists l h', run h = Some (l, h') /\ heap_wf h' /\ extends h h'
               /\ repr_at (fun y => (next_loc h <= y)%nat) h' l t.

(** [r] is not an [InvalidArgument] error. *)
Definition no_invalid {A} (r : result A) : Prop := forall m, r <> Err (InvalidArgument m).


(* ------------------------------------------------------------------------- *)
(** ** Well-formed patterns

    The data model's bounds: names, string contents and child lists fit the
    8-byte length fields, [bits] is a [uint64_t], and every composite pattern
    has as many arguments as its symbol's declared arity. *)

Definition fits_u64 (n : N) : bool := n <? 2 ^ 64.

Definition str_ok (s : string) : bool :=
  fits_u64 (N.of_nat (length (list_byte_of_string s))).

Fixpoint sort_ok (s : sort) : bool :=
  match s with
  | SortVariable n => str_ok n
  | CompositeSort n vt args =>
      str_ok n && fits_u64 (vt_bits vt) && fits_u64 (N.of_nat (length args))
      && forallb sort_ok args
  end.

Definition sorts_ok (l : list sort) : bool :=
  fits_u64 (N.of_nat (length l)) && forallb sort_ok l.

Definition symbol_ok (c : symbol) : bool :=
  str_ok (sym_name c) && sorts_ok (sym_arguments c)
  && sorts_ok (sym_formal_arguments c)
  && match sym_sort c with None => true | Some s => sort_ok s end.

Fixpoint wf_pattern (p : pattern) : bool :=
  match p with
  | CompositePattern c args =>
      symbol_ok c && Nat.eqb (length args) (arity c)
      && fits_u64 (N.of_nat (length args)) && forallb wf_pattern args
  | StringPattern s => str_ok s
  | VariablePattern n s => str_ok n && sort_ok s
  end.

(** The arity invariant alone: every composite pattern has as many
    arguments as its symbol's declared arity. *)
Fixpoint arity_ok (p : pattern) : bool :=
  match p with
  | CompositePattern c args => Nat.eqb (length args) (arity c) && forallb arity_ok args
  | _ => true
  end.

(** Induction over the nested types. *)
Section NestedInduction.
Variable P : sort -> Prop.
Hypothesis HV : forall n, P (SortVariable n).
Hypothesis HC : forall n vt args, Forall P args -> P (CompositeSort n vt args).

Fixpoint sort_ind' (s : sort) : P s :=
  match s with
  | SortVariable n => HV n
  | CompositeSort n vt args =>
      HC n vt args
        ((fix go (l : list sort) : Forall P l :=
            match l with
            | [] => @List.Forall_nil _ P
            | x :: l' => @List.Forall_cons _ P x l' (sort_ind' x) (go l')
            end) args)
  end.

Variable Q : pattern -> Prop.
Hypothesis QC : forall c args, Forall Q args -> Q (CompositePattern c args).
Hypothesis QV : forall n s, Q (VariablePattern n s).
Hypothesis QS : forall s, Q (StringPattern s).

Fixpoint pattern_ind' (p : pattern) : Q p :=
  match p with
  | CompositePattern c args =>
      QC c args
        ((fix go (l : list pattern) : Forall Q l :=
            match l with
            | [] => @List.Forall_nil _ Q
            | x :: l' => @List.Forall_cons _ Q x l' (pattern_ind' x) (go l')
            end) args)
  | VariablePattern n s => QV n s
  | StringPattern s => QS s
  end.
End NestedInduction.

(* ------------------------------------------------------------------------- *)
(** ** Sample objects *)

Definition sort_int : sort := CompositeSort "SortInt" (mk_value_type SC_Int 0) [].

(** [f : SortInt x SortInt -> SortInt] *)
Definition sym_f : symbol := mk_symbol "f" [] [sort_int; sort_int] (Some sort_int).

(** [f(X : SortInt, "hi")] *)
Definition p1 : pattern :=
  CompositePattern sym_f [VariablePattern "X" sort_int; StringPattern "hi"].

Definition sym_raw : symbol := mk_symbol "rawTerm" [] [sort_int] (Some sort_int).
Definition sym_inj : symbol :=
  mk_symbol "inj" [sort_int; sort_int] [sort_int] (Some sort_int).

(** [rawTerm{}(inj{SortInt, SortInt}("x"))] *)
Definition raw_p : pattern :=
  CompositePattern sym_raw [CompositePattern sym_inj [StringPattern "x"]].

(** A stream with the given version, a size field and the body of [p1]. *)
Definition p1_stream (v : binary_version) (size : N) : bytes :=
  magic_header ++ version_bytes v ++ u64 size ++ enc_pattern p1.

Definition empty_heap : heap := mk_heap empty 0.

(** [p1] built as [CompositePattern(f)], then its two arguments created and
    added in order. *)
Definition build_p1_children_last : heap * loc :=
  let '(self, h1) := CompositePattern_create empty_heap sym_f in
  let '(x, h2) := alloc h1 (NVariable "X" sort_int) in
  let '(s, h3) := alloc h2 (NString "hi") in
  (add_argument (add_argument h3 self x) self s, self).

(** [p1] built with its arguments created first, the string before the
    variable. *)
Definition build_p1_children_first : heap * loc :=
  let '(s, h1) := alloc empty_heap (NString "hi") in
  let '(x, h2) := alloc h1 (NVariable "X" sort_int) in
  let '(self, h3) := CompositePattern_create h2 sym_f in
  (add_argument (add_argument h3 self x) self s, self).

(** [CompositePattern(f)] given one argument, while [f] takes two. *)
Definition build_short_f : heap * loc :=
  let '(self, h1) := CompositePattern_create empty_heap sym_f in
  let '(s, h2) := alloc h1 (NString "a") in
  (add_argument h2 self s, self).

(* ------------------------------------------------------------------------- *)
(** ** Round trip of the body encoding *)

Lemma byte_of_N_to_N (n : N) : Byte.to_N (byte_of_N n) = n mod 256.
Proof.
  unfold byte_of_N.
  pose proof (Byte.to_of_N_option_map (n mod 256)) as H.
  assert (Hlt : n mod 256 < 256) by (apply N.mod_lt; lia).
  replace (n mod 256 <=? 255) with true in H
    by (symmetry; apply N.leb_le; lia).
  destruct (Byte.of_N (n mod 256)); simpl in H; congruence.
Qed.

Lemma le_encode_length (k : nat) (n : N) : length (le_encode k n) = k.
Proof. revert n; induction k; intros; simpl; auto. Qed.

Lemma le_decode_encode (k : nat) (n : N) :
  n < 256 ^ N.of_nat k -> le_decode (le_encode k n) = n.
Proof.
  revert n; induction k as [|k IH]; intros n Hn.
  - simpl in *. lia.
  - cbn [le_encode le_decode]. rewrite byte_of_N_to_N.
    rewrite Nat2N.inj_succ, N.pow_succ_r' in Hn.
    rewrite IH.
    + pose proof (N.div_mod n 256). lia.
    + apply N.Div0.div_lt_upper_bound; lia.
Qed.

Lemma fits_u64_lt (n : N) : fits_u64 n = true -> n < 256 ^ N.of_nat 8.
Proof.
  unfold fits_u64; rewrite N.ltb_lt.
  replace (256 ^ N.of_nat 8) with (2 ^ 64) by reflexivity; auto.
Qed.

Lemma le_decode_u64 (n : N) : fits_u64 n = true -> le_decode (u64 n) = n.
Proof. intro H; apply le_decode_encode, fits_u64_lt, H. Qed.

Lemma dec_u64_u64 (n : N) (r : bytes) :
  fits_u64 n = true -> dec_u64 (u64 n ++ r) = Ok (n, r).
Proof.
  unfold fits_u64, dec_u64, u64; intro H; apply N.ltb_lt in H.
  rewrite length_app, le_encode_length.
  destruct (Nat.ltb_spec (8 + length r) 8) as [Hc|_]; [lia|].
  rewrite firstn_app, skipn_app, le_encode_length, Nat.sub_diag.
  rewrite firstn_all2, skipn_all2 by (rewrite le_encode_length; lia).
  simpl firstn; simpl skipn; rewrite app_nil_r.
  rewrite le_decode_encode; auto.
Qed.

Lemma take_exact_app (xs r : bytes) :
  take_exact (N.of_nat (length xs)) (xs ++ r) = Ok (xs, r).
Proof.
  unfold take_exact. rewrite length_app, Nat2N.id.
  replace (N.of_nat (length xs + length r) <? N.of_nat (length xs)) with false
    by (symmetry; apply N.ltb_ge; lia).
  rewrite firstn_app, skipn_app, Nat.sub_diag, firstn_all, skipn_all.
  simpl; rewrite app_nil_r; reflexivity.
Qed.

Lemma dec_str_enc (s : string) (r : bytes) :
  str_ok s = true -> dec_str (enc_str s ++ r) = Ok (s, r).
Proof.
  unfold str_ok, dec_str, enc_str; intro H.
  rewrite <- app_assoc, dec_u64_u64 by exact H; simpl.
  rewrite take_exact_app; simpl.
  rewrite string_of_list_byte_of_string; reflexivity.
Qed.

Lemma dec_value_type_enc (vt : value_type) (r : bytes) :
  fits_u64 (vt_bits vt) = true ->
  dec_value_type (enc_value_type vt ++ r) = Ok (vt, r).
Proof.
  intro H; destruct vt as [c bits]; unfold enc_value_type, dec_value_type.
  cbn [app vt_cat vt_bits].
  replace (cat_of_code (Byte.to_N (byte_of_N (cat_code c)))) with (Some c)
    by (destruct c; reflexivity).
  rewrite dec_u64_u64 by exact H; reflexivity.
Qed.

Lemma dec_many_enc {A} (d : bytes -> result (A * bytes)) (enc : A -> bytes)
  (l : list A) (r : bytes) :
  (forall a r', In a l -> d (enc a ++ r') = Ok (a, r')) ->
  dec_many d (length l) (flat_map enc l ++ r) = Ok (l, r).
Proof.
  revert r; induction l as [|a l IH]; intros r H; simpl; auto.
  rewrite <- app_assoc, H by (left; reflexivity); simpl.
  rewrite IH by (intros; apply H; right; assumption); reflexivity.
Qed.

Lemma flat_map_length_in {A} (enc : A -> bytes) (l : list A) (a : A) :
  In a l -> (length (enc a) <= length (flat_map enc l))%nat.
Proof.
  induction l as [|b l IH]; simpl; [tauto|].
  rewrite length_app; intros [->|Hin]; [lia|]. specialize (IH Hin); lia.
Qed.

Ltac split_ok H :=
  repeat (rewrite Bool.andb_true_iff in H; destruct H as [H ?]).

Lemma dec_sort_enc (s : sort) :
  sort_ok s = true -> forall f r, (length (enc_sort s) <= f)%nat ->
  dec_sort f (enc_sort s ++ r) = Ok (s, r).
Proof.
  induction s as [n | n vt args IH] using sort_ind';
    intros Hok f r Hf; destruct f as [|f]; cbn [enc_sort length] in Hf; try lia.
  - cbn [enc_sort app dec_sort]. rewrite dec_str_enc by exact Hok; reflexivity.
  - cbn [sort_ok] in Hok. split_ok Hok.
    rewrite List.Forall_forall in IH; rewrite List.forallb_forall in H.
    cbn [enc_sort app]; rewrite <- !app_assoc; cbn [dec_sort].
    rewrite dec_str_enc by assumption; cbn [bind].
    rewrite dec_value_type_enc by assumption; cbn [bind].
    unfold u64_len; rewrite dec_u64_u64 by assumption; cbn [bind].
    rewrite Nat2N.id, dec_many_enc; [reflexivity|].
    intros a r' Hin. apply IH; auto.
    pose proof (flat_map_length_in enc_sort args a Hin).
    rewrite !length_app in Hf; lia.
Qed.

Lemma dec_sorts_enc (l : list sort) (f : nat) (r : bytes) :
  sorts_ok l = true -> (length (enc_sorts l) <= f)%nat ->
  dec_sorts f (enc_sorts l ++ r) = Ok (l, r).
Proof.
  unfold sorts_ok, enc_sorts, dec_sorts, u64_len; intros Hok Hf; split_ok Hok.
  rewrite List.forallb_forall in H.
  rewrite <- app_assoc, dec_u64_u64 by assumption; cbn [bind].
  rewrite Nat2N.id, dec_many_enc; [reflexivity|].
  intros a r' Hin. apply dec_sort_enc; auto.
  pose proof (flat_map_length_in enc_sort l a Hin).
  rewrite length_app in Hf; lia.
Qed.

Lemma dec_symbol_enc (c : symbol) (f : nat) (r : bytes) :
  symbol_ok c = true -> (length (enc_symbol c) <= f)%nat ->
  dec_symbol f (enc_symbol c ++ r) = Ok (c, r).
Proof.
  destruct c as [n args formals ret]; unfold symbol_ok, enc_symbol, dec_symbol;
    cbn [sym_name sym_arguments sym_formal_arguments sym_sort];
    intros Hok Hf; split_ok Hok.
  rewrite !length_app in Hf.
  rewrite <- !app_assoc, dec_str_enc by assumption; cbn [bind].
  rewrite dec_sorts_enc by (assumption || lia); cbn [bind].
  rewrite dec_sorts_enc by (assumption || lia); cbn [bind].
  destruct ret as [s|]; cbn [app bind].
  - rewrite dec_sort_enc by (assumption || (cbn [length] in Hf; lia)); reflexivity.
  - reflexivity.
Qed.

Lemma dec_pattern_enc (p : pattern) :
  wf_pattern p = true -> forall f r, (length (enc_pattern p) <= f)%nat ->
  dec_pattern f (enc_pattern p ++ r) = Ok (p, r).
Proof.
  induction p as [c args IH | n s | s] using pattern_ind';
    intros Hok f r Hf; destruct f as [|f]; cbn [enc_pattern length] in Hf; try lia;
    cbn [wf_pattern] in Hok; split_ok Hok.
  - rewrite List.Forall_forall in IH; rewrite List.forallb_forall in H.
    rewrite !length_app in Hf.
    cbn [enc_pattern app]; rewrite <- !app_assoc; cbn [dec_pattern].
    rewrite dec_symbol_enc by (assumption || lia); cbn [bind].
    unfold u64_len; rewrite dec_u64_u64 by assumption; cbn [bind].
    rewrite Nat2N.id. apply Nat.eqb_eq in H1. rewrite H1, Nat.eqb_refl. cbn [negb].
    rewrite <- H1, dec_many_enc; [reflexivity|].
    intros a r' Hin. apply IH; auto.
    pose proof (flat_map_length_in enc_pattern args a Hin); lia.
  - rewrite length_app in Hf.
    cbn [enc_pattern app]; rewrite <- !app_assoc; cbn [dec_pattern].
    rewrite dec_str_enc by assumption; cbn [bind].
    rewrite dec_sort_enc by (assumption || lia); reflexivity.
  - cbn [enc_pattern app dec_pattern].
    rewrite dec_str_enc by assumption; reflexivity.
Qed.

Lemma read_body_enc (v : binary_version) (p : pattern) :
  wf_pattern p = true -> read_body v (enc_pattern p) = Ok p.
Proof.
  intro H; unfold read_body.
  pose proof (dec_pattern_enc p H (S (length (enc_pattern p))) [] ltac:(lia)) as E.
  rewrite app_nil_r in E; rewrite E; reflexivity.
Qed.

(* ------------------------------------------------------------------------- *)
(** ** Framing lemmas *)

(** The bytes of [Pattern.serialize]: header, version, size field, body. *)
Lemma Pattern_serialize_layout (p : pattern) (emit_size : bool) :
  Pattern_serialize p emit_size =
  magic_header ++ version_bytes current_version
  ++ u64 (if emit_size then N.of_nat (length (enc_pattern p)) else 0)
  ++ enc_pattern p.
Proof.
  unfold Pattern_serialize, byte_string, serialize_to, correct_emitted_size,
    new_serializer.
  destruct emit_size; cbn [ser_buffer].
  - remember (enc_pattern p) as e.
    simpl. rewrite Nat.sub_0_r. reflexivity.
  - rewrite <- !app_assoc; reflexivity.
Qed.

Lemma deserialize_pattern_framed (size : N) (body : bytes) (strip : bool) :
  fits_u64 size = true ->
  deserialize_pattern
    (magic_header ++ version_bytes current_version ++ u64 size ++ body) strip =
  let* b := (if size =? 0 then Ok body
             else let* (b, _) := take_exact size body in Ok b) in
  let* p := read_body current_version b in
  Ok (if strip then strip_raw_term p else p).
Proof.
  intro H. unfold deserialize_pattern.
  remember (u64 size ++ body) as rest.
  simpl. subst rest. rewrite dec_u64_u64 by exact H. reflexivity.
Qed.

Lemma enc_pattern_nonempty (p : pattern) : (0 < length (enc_pattern p))%nat.
Proof. destruct p; simpl; lia. Qed.

Lemma deserialize_emitted (p : pattern) (strip : bool) :
  wf_pattern p = true ->
  fits_u64 (N.of_nat (length (enc_pattern p))) = true ->
  Pattern_deserialize (Pattern_serialize p true) strip
  = Ok (if strip then strip_raw_term p else p).
Proof.
  intros Hwf Hfit. unfold Pattern_deserialize.
  rewrite Pattern_serialize_layout, deserialize_pattern_framed by exact Hfit.
  pose proof (enc_pattern_nonempty p) as Hne.
  replace (N.of_nat (length (enc_pattern p)) =? 0) with false
    by (symmetry; apply N.eqb_neq; lia).
  rewrite <- (app_nil_r (enc_pattern p)) at 2.
  rewrite take_exact_app; cbn [bind].
  rewrite read_body_enc by exact Hwf; reflexivity.
Qed.

(** Reading a known prefix from a [BytesIO]. *)
Lemma bytes_io_read_prefix (buf xs rest : bytes) (pos : nat) (n : N) :
  skipn pos buf = xs ++ rest -> N.to_nat n = length xs ->
  bytes_io_read (mk_bytes_io buf pos) n = (xs, mk_bytes_io buf (pos + length xs))
  /\ skipn (pos + length xs) buf = rest.
Proof.
  intros Hs Hn. unfold bytes_io_read; cbn [bio_pos bio_buf].
  rewrite Hs, Hn, firstn_app, Nat.sub_diag, firstn_all; cbn [firstn].
  rewrite app_nil_r; split; [reflexivity|].
  rewrite Nat.add_comm, <- skipn_skipn, Hs, skipn_app, Nat.sub_diag, skipn_all.
  reflexivity.
Qed.

Lemma read_from_framed (p : pattern) (buf rest : bytes) (pos : nat) :
  wf_pattern p = true ->
  fits_u64 (N.of_nat (length (enc_pattern p))) = true ->
  skipn pos buf = Pattern_serialize p true ++ rest ->
  read_pattern_from_file bytes_io bytes_io_read (FileLike (mk_bytes_io buf pos))
  = (Ok p, FileLike (mk_bytes_io buf (pos + length (Pattern_serialize p true)))).
Proof.
  intros Hwf Hfit Hs.
  rewrite Pattern_serialize_layout in *.
  set (e := enc_pattern p) in *.
  rewrite <- !app_assoc in Hs.
  destruct (bytes_io_read_prefix buf magic_header _ pos 5 Hs eq_refl) as [R1 S1].
  destruct (bytes_io_read_prefix buf (version_bytes current_version) _ _ 6 S1 eq_refl)
    as [R2 S2].
  assert (L8 : N.to_nat 8 = length (u64 (N.of_nat (length e))))
    by (unfold u64; rewrite le_encode_length; reflexivity).
  destruct (bytes_io_read_prefix buf _ _ _ 8 S2 L8) as [R3 S3].
  assert (Le : N.to_nat (N.of_nat (length e)) = length e) by apply Nat2N.id.
  destruct (bytes_io_read_prefix buf e _ _ _ S3 Le) as [R4 _].
  change (length magic_header) with 5%nat in *.
  change (length (version_bytes current_version)) with 6%nat in *.
  assert (Hm : std_equal magic_header magic_header = true) by reflexivity.
  assert (Hv : read_version (version_bytes current_version ++ [])
               = Ok (version_1_2_0, [])) by reflexivity.
  rewrite app_nil_r in Hv.
  assert (Hlt : version_ltb version_1_2_0 version_1_2_0 = false) by reflexivity.
  unfold read_pattern_from_file.
  rewrite R1, Hm; cbv beta iota.
  rewrite R2, Hv; cbv beta iota.
  rewrite Hlt, R3; cbv beta iota.
  unfold read_pattern_size_unchecked, fst.
  rewrite firstn_all2 by (unfold u64; rewrite le_encode_length; lia).
  rewrite le_decode_u64 by exact Hfit.
  pose proof (enc_pattern_nonempty p) as Hne.
  replace (N.of_nat (length e) =? 0) with false
    by (symmetry; apply N.eqb_neq; subst e; lia).
  rewrite R4; cbv beta iota; subst e; rewrite read_body_enc by exact Hwf.
  cbn [negb]; rewrite !length_app, <- L8; do 3 f_equal; cbn; lia.
Qed.

(* ------------------------------------------------------------------------- *)
(** ** Heap lemmas *)

Lemma extends_refl (h : heap) : extends h h.
Proof. split; auto. Qed.

Lemma extends_trans (h1 h2 h3 : heap) :
  extends h1 h2 -> extends h2 h3 -> extends h1 h3.
Proof.
  intros [L1 E1] [L2 E2]; split; [lia|].
  intros x Hx. rewrite E2 by lia. apply E1; lia.
Qed.

Lemma alloc_spec_lemma (h : heap) (n : node) :
  heap_wf h ->
  let '(l, h') := alloc h n in
  l = next_loc h /\ next_loc h' = S (next_loc h) /\ heap_wf h' /\ extends h h'
  /\ cells h' !! l = Some n.
Proof.
  intro Hwf; unfold alloc; cbv beta iota; cbn [cells next_loc].
  split; [reflexivity|]; split; [reflexivity|].
  unfold heap_wf, extends; cbn [cells next_loc].
  split; [|split; [split; [lia|]|]].
  - intros x m Hx. destruct (decide (x = next_loc h)) as [->|Hne]; [lia|].
    rewrite lookup_insert_ne in Hx by congruence. specialize (Hwf x m Hx); cbv beta in Hwf; lia.
  - intros x Hx. rewrite lookup_insert_ne by lia. reflexivity.
  - apply lookup_insert_eq.
Qed.

Lemma repr_at_weaken (P Q : loc -> Prop) (h : heap) :
  (forall x, P x -> Q x) ->
  forall l t, repr_at P h l t -> repr_at Q h l t.
Proof.
  intros HPQ l t Hr.
  induction Hr using repr_at_mut with
    (P1 := fun ls ts _ => repr_list_at Q h ls ts);
    econstructor; eauto.
Qed.

Lemma repr_list_at_weaken (P Q : loc -> Prop) (h : heap) :
  (forall x, P x -> Q x) ->
  forall ls ts, repr_list_at P h ls ts -> repr_list_at Q h ls ts.
Proof.
  intros HPQ ls ts Hr; induction Hr; constructor; auto.
  eapply repr_at_weaken; eauto.
Qed.

Lemma repr_at_extend (P : loc -> Prop) (h h' : heap) :
  heap_wf h -> extends h h' ->
  forall l t, repr_at P h l t -> repr_at P h' l t.
Proof.
  intros Hwf [_ Hext] l t Hr.
  induction Hr using repr_at_mut with
    (P1 := fun ls ts _ => repr_list_at P h' ls ts);
    try (econstructor; eauto; rewrite Hext; eauto; eapply Hwf; eauto).
Qed.

Lemma repr_list_at_extend (P : loc -> Prop) (h h' : heap) :
  heap_wf h -> extends h h' ->
  forall ls ts, repr_list_at P h ls ts -> repr_list_at P h' ls ts.
Proof.
  intros Hwf Hext ls ts Hr; induction Hr; constructor; auto.
  eapply repr_at_extend; eauto.
Qed.

Lemma repr_list_at_length (P : loc -> Prop) (h : heap) ls ts :
  repr_list_at P h ls ts -> length ls = length ts.
Proof. induction 1; simpl; auto. Qed.

Lemma map_heap_builds_new {A} (Inv : heap -> Prop)
  (g : heap -> A -> option (loc * heap)) (f : pattern -> pattern)
  (xs : list A) (ts : list pattern) :
  (forall h h', Inv h -> extends h h' -> Inv h') ->
  Forall2 (fun x t => builds_new Inv (fun h => g h x) (f t)) xs ts ->
  forall h, heap_wf h -> Inv h ->
  exists ls h', map_heap g h xs = Some (ls, h') /\ heap_wf h' /\ extends h h'
    /\ repr_list_at (fun y => (next_loc h <= y)%nat) h' ls (map f ts).
Proof.
  intros Hinv HF; induction HF as [|x t xs ts Hx _ IH]; intros h Hwf Hi.
  - exists [], h; repeat split; auto using extends_refl; constructor.
  - destruct (Hx h Hwf Hi) as (l1 & h1 & E1 & W1 & X1 & R1).
    destruct (IH h1 W1 (Hinv _ _ Hi X1)) as (ls & h2 & E2 & W2 & X2 & R2).
    exists (l1 :: ls), h2; cbn [map_heap]; rewrite E1, E2.
    split; [reflexivity|]; split; [exact W2|]; split.
    + eapply extends_trans; eauto.
    + cbn [map]; constructor.
      * exact (repr_at_extend _ h1 h2 W1 X2 _ _ R1).
      * eapply repr_list_at_weaken; [|exact R2]. destruct X1; intros; lia.
Qed.

Lemma alloc_facts (h : heap) (n : node) (l : loc) (h' : heap) :
  heap_wf h -> alloc h n = (l, h') ->
  l = next_loc h /\ next_loc h' = S (next_loc h) /\ heap_wf h' /\ extends h h'
  /\ cells h' !! l = Some n.
Proof.
  intros Hwf E; pose proof (alloc_spec_lemma h n Hwf) as H; rewrite E in H; exact H.
Qed.

(** Allocating one node over children that are all new gives a new tree. *)
Lemma alloc_composite_new (h h1 : heap) (c : symbol) (ls : list loc) (ts : list pattern) :
  heap_wf h1 -> extends h h1 ->
  repr_list_at (fun y => (next_loc h <= y)%nat) h1 ls ts ->
  exists l h2, alloc h1 (NComposite c ls) = (l, h2) /\ heap_wf h2 /\ extends h h2
    /\ repr_at (fun y => (next_loc h <= y)%nat) h2 l (CompositePattern c ts).
Proof.
  intros W1 X1 R1. destruct (alloc h1 (NComposite c ls)) as [l h2] eqn:E.
  destruct (alloc_facts _ _ _ _ W1 E) as (-> & _ & W2 & X2 & C2).
  exists (next_loc h1), h2; split; [reflexivity|]; split; [exact W2|]; split.
  - eapply extends_trans; eauto.
  - apply repr_composite with ls; [destruct X1; lia|exact C2|].
    exact (repr_list_at_extend _ h1 h2 W1 X2 _ _ R1).
Qed.

Lemma alloc_leaf_new (h : heap) (n : node) (t : pattern) :
  heap_wf h ->
  (forall h' l, cells h' !! l = Some n ->
     repr_at (fun y => (next_loc h <= y)%nat) h' l t \/ (next_loc h > l)%nat) ->
  exists l h', alloc h n = (l, h') /\ heap_wf h' /\ extends h h'
    /\ repr_at (fun y => (next_loc h <= y)%nat) h' l t.
Proof.
  intros Hwf Hn. destruct (alloc h n) as [l h'] eqn:E.
  destruct (alloc_facts _ _ _ _ Hwf E) as (-> & _ & W & X & C).
  exists (next_loc h), h'; split; [reflexivity|]; split; [exact W|]; split; [exact X|].
  destruct (Hn h' _ C) as [R|R]; [exact R|lia].
Qed.

Lemma alloc_variable_new (h : heap) x s :
  heap_wf h ->
  exists l h', alloc h (NVariable x s) = (l, h') /\ heap_wf h' /\ extends h h'
    /\ repr_at (fun y => (next_loc h <= y)%nat) h' l (VariablePattern x s).
Proof.
  intro Hwf; apply alloc_leaf_new; auto.
  intros h' l C. destruct (decide (next_loc h <= l)%nat); [left|right; lia].
  constructor; auto.
Qed.

Lemma alloc_string_new (h : heap) s :
  heap_wf h ->
  exists l h', alloc h (NString s) = (l, h') /\ heap_wf h' /\ extends h h'
    /\ repr_at (fun y => (next_loc h <= y)%nat) h' l (StringPattern s).
Proof.
  intro Hwf; apply alloc_leaf_new; auto.
  intros h' l C. destruct (decide (next_loc h <= l)%nat); [left|right; lia].
  constructor; auto.
Qed.

Lemma map_heap_alloc {A} (g : heap -> A -> loc * heap) (h : heap) (xs : list A) :
  map_heap (fun h' x => Some (g h' x)) h xs = Some (map_alloc g h xs).
Proof.
  revert h; induction xs as [|x xs IH]; intro h; cbn; [reflexivity|].
  destruct (g h x) as [y h1]. rewrite IH. destruct (map_alloc g h1 xs); reflexivity.
Qed.

Lemma extends_inv_trans (h : heap) :
  forall h1 h2, extends h h1 -> extends h1 h2 -> extends h h2.
Proof. intros; eapply extends_trans; eauto. Qed.

Lemma alloc_tree_new (t : pattern) :
  builds_new (fun _ => True) (fun h => Some (alloc_tree h t)) t.
Proof.
  induction t as [c args IH|x s|s] using pattern_ind'; intros h Hwf _.
  - assert (HF : Forall2 (fun a u => builds_new (fun _ => True)
                   (fun h' => Some (alloc_tree h' a)) ((fun u => u) u)) args args).
    { clear -IH; induction IH; constructor; auto. }
    destruct (map_heap_builds_new (fun _ => True) _ _ _ _ (fun _ _ _ _ => I) HF h Hwf I)
      as (ls & h1 & E1 & W1 & X1 & R1).
    rewrite map_heap_alloc in E1. injection E1 as E1.
    rewrite List.map_id in R1.
    destruct (alloc_composite_new h h1 c ls args W1 X1 R1) as (l & h2 & E2 & W2 & X2 & R2).
    exists l, h2; cbn [alloc_tree]; rewrite E1, E2; auto.
  - destruct (alloc_variable_new h x s Hwf) as (l & h' & E & W & X & R).
    exists l, h'; cbn [alloc_tree]; rewrite E; auto.
  - destruct (alloc_string_new h s Hwf) as (l & h' & E & W & X & R).
    exists l, h'; cbn [alloc_tree]; rewrite E; auto.
Qed.

Lemma height_child (c : symbol) (ts : list pattern) (t : pattern) (fuel : nat) :
  In t ts -> (height (CompositePattern c ts) <= S fuel)%nat -> (height t <= fuel)%nat.
Proof.
  intros Hin Hh; cbn [height] in Hh.
  assert (height t <= list_max (map height ts))%nat.
  { assert (HF := proj1 (list_max_le (map height ts) (list_max (map height ts)))
                  (Nat.le_refl _)).
    rewrite List.Forall_forall in HF. apply HF, in_map, Hin. }
  lia.
Qed.

Lemma repr_list_Forall2 (P : loc -> Prop) (h : heap) (Q : loc -> pattern -> Prop)
  (ls : list loc) (ts : list pattern) :
  repr_list_at P h ls ts ->
  (forall l t, In t ts -> repr_at P h l t -> Q l t) -> Forall2 Q ls ts.
Proof.
  induction 1 as [|l ls t ts Hl Hls IH]; intro HQ; constructor.
  - apply HQ; [left; reflexivity|exact Hl].
  - apply IH; intros; apply HQ; [right|]; auto.
Qed.

Lemma repr_composite_inv (P : loc -> Prop) (h : heap) (l : loc) c ts :
  repr_at P h l (CompositePattern c ts) ->
  exists ls, P l /\ cells h !! l = Some (NComposite c ls) /\ repr_list_at P h ls ts.
Proof. intro Hr; inversion Hr; subst; eauto. Qed.

Lemma repr_variable_inv (P : loc -> Prop) (h : heap) (l : loc) x s :
  repr_at P h l (VariablePattern x s) -> P l /\ cells h !! l = Some (NVariable x s).
Proof. intro Hr; inversion Hr; subst; eauto. Qed.

Lemma repr_string_inv (P : loc -> Prop) (h : heap) (l : loc) s :
  repr_at P h l (StringPattern s) -> P l /\ cells h !! l = Some (NString s).
Proof. intro Hr; inversion Hr; subst; eauto. Qed.

Lemma height_pos (t : pattern) : (1 <= height t)%nat.
Proof. destruct t; cbn [height]; lia. Qed.

(** The children of a composite object, each turned into a new tree by [g]
    and [f], give a list of new trees. *)
Lemma children_new (g : nat -> heap -> loc -> option (loc * heap))
  (f : pattern -> pattern) (h : heap) (c : symbol) (ls : list loc) (ts : list pattern)
  (fuel : nat) :
  heap_wf h -> repr_list_at (fun _ => True) h ls ts ->
  (height (CompositePattern c ts) <= S fuel)%nat ->
  Forall (fun u => forall fuel h l, heap_wf h -> repr h l u -> (height u <= fuel)%nat ->
            exists l2 h2, g fuel h l = Some (l2, h2) /\ heap_wf h2 /\ extends h h2
              /\ repr_at (fun y => (next_loc h <= y)%nat) h2 l2 (f u)) ts ->
  exists ls' h1, map_heap (g fuel) h ls = Some (ls', h1) /\ heap_wf h1 /\ extends h h1
    /\ repr_list_at (fun y => (next_loc h <= y)%nat) h1 ls' (map f ts).
Proof.
  intros Hwf Hls Hh IH.
  apply (map_heap_builds_new (fun h' => extends h h') (g fuel) f ls ts);
    [exact (extends_inv_trans h)| |exact Hwf|exact (extends_refl h)].
  apply (repr_list_Forall2 _ h _ ls ts Hls).
  intros a u Hin Ha h' W' I'.
  rewrite List.Forall_forall in IH.
  apply (IH u Hin fuel h' a W'); [|exact (height_child c ts u fuel Hin Hh)].
  exact (repr_at_extend _ h h' Hwf I' a u Ha).
Qed.

Lemma substitute_node_new (binds : symbol -> string -> bool) (t : pattern) :
  forall m fuel h l, heap_wf h -> repr h l t -> (height t <= fuel)%nat ->
  exists l2 h2, substitute_node binds fuel m h l = Some (l2, h2) /\ heap_wf h2
    /\ extends h h2
    /\ repr_at (fun y => (next_loc h <= y)%nat) h2 l2 (psubst binds m t).
Proof.
  induction t as [c ts IH|x s|s] using pattern_ind'; intros m fuel h l Hwf Hr Hh;
    (destruct fuel as [|fuel]; [cbn [height] in Hh; lia|]).
  - destruct (repr_composite_inv _ _ _ _ _ Hr) as (ls & _ & Hc & Hls).
    assert (IH' : Forall (fun u => forall fuel h l, heap_wf h -> repr h l u ->
              (height u <= fuel)%nat ->
              exists l2 h2, (fun fuel h' a => substitute_node binds fuel (remove_bound binds c m) h' a)
                              fuel h l = Some (l2, h2) /\ heap_wf h2 /\ extends h h2
                /\ repr_at (fun y => (next_loc h <= y)%nat) h2 l2
                     (psubst binds (remove_bound binds c m) u)) ts).
    { rewrite List.Forall_forall in IH |- *; intros u Hu; exact (IH u Hu _). }
    destruct (children_new _ _ h c ls ts fuel Hwf Hls Hh IH')
      as (ls' & h1 & E1 & W1 & X1 & R1).
    destruct (alloc_composite_new h h1 c ls' _ W1 X1 R1) as (l2 & h2 & E2 & W2 & X2 & R2).
    exists l2, h2; cbn [substitute_node]; rewrite Hc, E1, E2; auto.
  - destruct (repr_variable_inv _ _ _ _ _ Hr) as (_ & Hc).
    cbn [substitute_node psubst]; rewrite Hc.
    destruct (lookup_subst m x) as [u|].
    + destruct (alloc_tree_new u h Hwf I) as (l2 & h2 & E & W & X & R).
      injection E as E; rewrite E; exists l2, h2; auto.
    + destruct (alloc_variable_new h x s Hwf) as (l2 & h2 & E & W & X & R).
      rewrite E; exists l2, h2; auto.
  - destruct (repr_string_inv _ _ _ _ Hr) as (_ & Hc).
    cbn [substitute_node psubst]; rewrite Hc.
    destruct (alloc_string_new h s Hwf) as (l2 & h2 & E & W & X & R).
    rewrite E; exists l2, h2; auto.
Qed.

Lemma alloc_composite_at (P : loc -> Prop) (h1 : heap) (c : symbol) (ls : list loc)
  (ts : list pattern) :
  heap_wf h1 -> P (next_loc h1) -> repr_list_at P h1 ls ts ->
  exists l h2, alloc h1 (NComposite c ls) = (l, h2) /\ heap_wf h2 /\ extends h1 h2
    /\ repr_at P h2 l (CompositePattern c ts).
Proof.
  intros W1 HP R1. destruct (alloc h1 (NComposite c ls)) as [l h2] eqn:E.
  destruct (alloc_facts _ _ _ _ W1 E) as (-> & _ & W2 & X2 & C2).
  exists (next_loc h1), h2; split; [reflexivity|]; split; [exact W2|]; split; [exact X2|].
  apply repr_composite with ls; [exact HP|exact C2|].
  exact (repr_list_at_extend _ h1 h2 W1 X2 _ _ R1).
Qed.

Section NestLemmas.
Variable c : symbol.
Variable N : loc.
Local Abbreviation PN := (fun y => (N <= y)%nat).

Lemma right_nest_new (rest : list loc) :
  forall h a ta trest, heap_wf h -> (N <= next_loc h)%nat ->
  repr_at PN h a ta -> repr_list_at PN h rest trest ->
  exists r h', right_nest c h a rest = (r, h') /\ heap_wf h' /\ extends h h'
    /\ repr_at PN h' r (pright c ta trest).
Proof.
  induction rest as [|b rest IH]; intros h a ta trest Hwf HN Ha Hrest;
    inversion Hrest as [|b' rest' tb trest' Hb Hrest']; subst.
  - exists a, h; split; [reflexivity|]; split; [exact Hwf|]; split; [apply extends_refl|].
    exact Ha.
  - destruct (IH h b tb trest' Hwf HN Hb Hrest') as (r & h1 & E1 & W1 & X1 & R1).
    assert (Hl : repr_list_at PN h1 [a; r] [ta; pright c tb trest']).
    { constructor; [exact (repr_at_extend _ h h1 Hwf X1 _ _ Ha)|].
      constructor; [exact R1|constructor]. }
    assert (HN1 : PN (next_loc h1)) by (cbv beta; destruct X1; lia).
    destruct (alloc_composite_at PN h1 c _ _ W1 HN1 Hl) as (l & h2 & E2 & W2 & X2 & R2).
    exists l, h2; cbn [right_nest pright]; rewrite E1, E2.
    split; [reflexivity|]; split; [exact W2|]; split; [eapply extends_trans; eauto|].
    exact R2.
Qed.

Lemma left_nest_new (rest : list loc) :
  forall h acc tacc trest, heap_wf h -> (N <= next_loc h)%nat ->
  repr_at PN h acc tacc -> repr_list_at PN h rest trest ->
  exists r h', left_nest c h acc rest = (r, h') /\ heap_wf h' /\ extends h h'
    /\ repr_at PN h' r (pleft c tacc trest).
Proof.
  induction rest as [|b rest IH]; intros h acc tacc trest Hwf HN Ha Hrest;
    inversion Hrest as [|b' rest' tb trest' Hb Hrest']; subst.
  - exists acc, h; split; [reflexivity|]; split; [exact Hwf|]; split; [apply extends_refl|].
    exact Ha.
  - assert (Hl : repr_list_at PN h [acc; b] [tacc; tb])
      by (constructor; [exact Ha|constructor; [exact Hb|constructor]]).
    destruct (alloc_composite_at PN h c _ _ Hwf HN Hl) as (n & h1 & E1 & W1 & X1 & R1).
    assert (HN1 : (N <= next_loc h1)%nat) by (destruct X1; lia).
    destruct (IH h1 n _ trest' W1 HN1 R1 (repr_list_at_extend _ h h1 Hwf X1 _ _ Hrest'))
      as (r & h2 & E2 & W2 & X2 & R2).
    exists r, h2; cbn [left_nest pleft]; rewrite E1, E2.
    split; [reflexivity|]; split; [exact W2|]; split; [eapply extends_trans; eauto|].
    exact R2.
Qed.
End NestLemmas.

Lemma desugar_node_new (assoc_of : symbol -> option assoc) (t : pattern) :
  forall fuel h l, heap_wf h -> repr h l t -> (height t <= fuel)%nat ->
  exists l2 h2, desugar_node assoc_of fuel h l = Some (l2, h2) /\ heap_wf h2
    /\ extends h h2
    /\ repr_at (fun y => (next_loc h <= y)%nat) h2 l2 (pdesugar assoc_of t).
Proof.
  induction t as [c ts IH|x s|s] using pattern_ind'; intros fuel h l Hwf Hr Hh;
    (destruct fuel as [|fuel]; [cbn [height] in Hh; lia|]).
  - destruct (repr_composite_inv _ _ _ _ _ Hr) as (ls & _ & Hc & Hls).
    destruct (children_new (desugar_node assoc_of) (pdesugar assoc_of) h c ls ts fuel
                Hwf Hls Hh IH) as (ls' & h1 & E1 & W1 & X1 & R1).
    pose proof (alloc_composite_new h h1 c ls' _ W1 X1 R1) as Halloc.
    assert (HN : (next_loc h <= next_loc h1)%nat) by (destruct X1; lia).
    cbn [desugar_node pdesugar]; rewrite Hc, E1.
    remember (map (pdesugar assoc_of) ts) as ts' eqn:Ets; clear Ets.
    revert Halloc.
    destruct R1 as [|a ls0 ta ts0 Ra [|b ls1 tb ts1 Rb R2]]; intro Halloc;
      destruct (assoc_of c) as [[|]|];
      try (destruct Halloc as (l2 & h2 & E2 & W2 & X2 & R2');
           rewrite E2; exists l2, h2; auto; fail).
    + destruct (left_nest_new c (next_loc h) (b :: ls1) h1 a ta (tb :: ts1) W1 HN Ra
                  (repr_cons _ _ _ _ _ _ Rb R2)) as (r & h2 & E2 & W2 & X2 & R2').
      rewrite E2; exists r, h2; split; [reflexivity|]; split; [exact W2|].
      split; [eapply extends_trans; eauto|exact R2'].
    + destruct (right_nest_new c (next_loc h) (b :: ls1) h1 a ta (tb :: ts1) W1 HN Ra
                  (repr_cons _ _ _ _ _ _ Rb R2)) as (r & h2 & E2 & W2 & X2 & R2').
      rewrite E2; exists r, h2; split; [reflexivity|]; split; [exact W2|].
      split; [eapply extends_trans; eauto|exact R2'].
  - destruct (repr_variable_inv _ _ _ _ _ Hr) as (_ & Hc).
    cbn [desugar_node pdesugar]; rewrite Hc.
    destruct (alloc_variable_new h x s Hwf) as (l2 & h2 & E & W & X & R).
    rewrite E; exists l2, h2; auto.
  - destruct (repr_string_inv _ _ _ _ Hr) as (_ & Hc).
    cbn [desugar_node pdesugar]; rewrite Hc.
    destruct (alloc_string_new h s Hwf) as (l2 & h2 & E & W & X & R).
    rewrite E; exists l2, h2; auto.
Qed.

Lemma map_opt_Forall2 {A B C} (g : A -> option B) (k : C -> B) (xs : list A) (ys : list C) :
  Forall2 (fun x y => g x = Some (k y)) xs ys -> map_opt g xs = Some (map k ys).
Proof. induction 1 as [|x y xs ys Hxy _ IH]; cbn; [reflexivity|]. now rewrite Hxy, IH. Qed.

Lemma serialize_node_repr (t : pattern) :
  forall fuel h l, repr h l t -> (height t <= fuel)%nat ->
  serialize_node fuel h l = Some (enc_pattern t).
Proof.
  induction t as [c ts IH|x s|s] using pattern_ind'; intros fuel h l Hr Hh;
    (destruct fuel as [|fuel]; [cbn [height] in Hh; lia|]).
  - destruct (repr_composite_inv _ _ _ _ _ Hr) as (ls & _ & Hc & Hls).
    cbn [serialize_node enc_pattern]; rewrite Hc.
    rewrite (map_opt_Forall2 _ enc_pattern ls ts).
    + unfold u64_len; rewrite (repr_list_at_length _ _ _ _ Hls), flat_map_concat_map.
      reflexivity.
    + apply (repr_list_Forall2 _ h _ ls ts Hls).
      intros a u Hin Ha. rewrite List.Forall_forall in IH.
      exact (IH u Hin fuel h a Ha (height_child c ts u fuel Hin Hh)).
  - destruct (repr_variable_inv _ _ _ _ _ Hr) as (_ & Hc).
    cbn [serialize_node enc_pattern]; rewrite Hc; reflexivity.
  - destruct (repr_string_inv _ _ _ _ Hr) as (_ & Hc).
    cbn [serialize_node enc_pattern]; rewrite Hc; reflexivity.
Qed.

Lemma Pattern_serialize_obj_repr (fuel : nat) (h : heap) (l : loc) (t : pattern)
  (emit_size : bool) :
  repr h l t -> (height t <= fuel)%nat ->
  Pattern_serialize_obj fuel h l emit_size = Some (Pattern_serialize t emit_size).
Proof.
  intros Hr Hh. unfold Pattern_serialize_obj, Pattern_serialize, serialize_to.
  rewrite (serialize_node_repr t fuel h l Hr Hh). reflexivity.
Qed.

(* ------------------------------------------------------------------------- *)
(** ** Which errors the body decoder raises *)

Lemma no_invalid_bind {A B} (m : result A) (k : A -> result B) :
  no_invalid m -> (forall a, no_invalid (k a)) -> no_invalid (bind m k).
Proof.
  intros Hm Hk; destruct m as [a|e]; cbn; [apply Hk|].
  intros msg E; injection E as ->; exact (Hm msg eq_refl).
Qed.

Lemma no_invalid_ok {A} (a : A) : no_invalid (Ok a).
Proof. intros m; discriminate. Qed.

Lemma no_invalid_format {A} (s : string) : no_invalid (@Err A (FormatError s)).
Proof. intros m; discriminate. Qed.

Lemma no_invalid_arity {A} : no_invalid (@Err A ArityError).
Proof. intros m; discriminate. Qed.

Create HintDb no_invalid_db.
#[local] Hint Resolve no_invalid_ok no_invalid_format no_invalid_arity : no_invalid_db.

Ltac no_invalid_step :=
  first [ solve [eauto with no_invalid_db] | apply no_invalid_bind | intros [? ?]
        | progress cbv beta iota ].

Lemma dec_u64_no_invalid bs : no_invalid (dec_u64 bs).
Proof. unfold dec_u64; destruct (Nat.ltb _ _); eauto with no_invalid_db. Qed.

Lemma take_exact_no_invalid n bs : no_invalid (take_exact n bs).
Proof. unfold take_exact; destruct (_ <? _); eauto with no_invalid_db. Qed.

#[local] Hint Resolve dec_u64_no_invalid take_exact_no_invalid : no_invalid_db.

Lemma dec_str_no_invalid bs : no_invalid (dec_str bs).
Proof. unfold dec_str; repeat no_invalid_step. Qed.

#[local] Hint Resolve dec_str_no_invalid : no_invalid_db.

Lemma dec_value_type_no_invalid bs : no_invalid (dec_value_type bs).
Proof.
  unfold dec_value_type; destruct bs as [|b r]; [apply no_invalid_format|].
  destruct (cat_of_code _); repeat no_invalid_step.
Qed.

Lemma dec_many_no_invalid {A} (d : bytes -> result (A * bytes)) k :
  (forall bs, no_invalid (d bs)) -> forall bs, no_invalid (dec_many d k bs).
Proof.
  intros Hd; induction k as [|k IH]; intro bs; cbn [dec_many];
    repeat first [no_invalid_step | apply Hd | apply IH].
Qed.

#[local] Hint Resolve dec_value_type_no_invalid : no_invalid_db.

Lemma dec_sort_no_invalid fuel : forall bs, no_invalid (dec_sort fuel bs).
Proof.
  induction fuel as [|f IH]; intro bs; cbn [dec_sort]; [apply no_invalid_format|].
  destruct bs as [|b r]; [apply no_invalid_format|].
  destruct b; repeat first [no_invalid_step | apply dec_many_no_invalid; exact IH].
Qed.

#[local] Hint Resolve dec_sort_no_invalid : no_invalid_db.

Lemma dec_symbol_no_invalid fuel bs : no_invalid (dec_symbol fuel bs).
Proof.
  unfold dec_symbol, dec_sorts.
  repeat first [ no_invalid_step | apply dec_many_no_invalid; apply dec_sort_no_invalid
               | match goal with |- no_invalid (match ?x with _ => _ end) => destruct x end ].
Qed.

#[local] Hint Resolve dec_symbol_no_invalid : no_invalid_db.

Lemma dec_pattern_no_invalid fuel : forall bs, no_invalid (dec_pattern fuel bs).
Proof.
  induction fuel as [|f IH]; intro bs; cbn [dec_pattern]; [apply no_invalid_format|].
  destruct bs as [|b r]; [apply no_invalid_format|].
  destruct b; repeat first [ no_invalid_step | apply dec_many_no_invalid; exact IH
                           | match goal with |- no_invalid (if ?x then _ else _) => destruct x end ].
Qed.

Lemma read_body_no_invalid version bs : no_invalid (read_body version bs).
Proof.
  unfold read_body; apply no_invalid_bind; [apply dec_pattern_no_invalid|].
  intros [p [|b r]]; cbv beta iota; eauto with no_invalid_db.
Qed.

(* ------------------------------------------------------------------------- *)
(** ** What the body decoder returns *)

Lemma bind_ok_inv {A B} (m : result A) (k : A -> result B) (b : B) :
  bind m k = Ok b -> exists a, m = Ok a /\ k a = Ok b.
Proof. destruct m as [a|e]; cbn; [eauto|discriminate]. Qed.

Lemma dec_many_inv {A} (d : bytes -> result (A * bytes)) (Q : A -> Prop) k :
  (forall bs x r, d bs = Ok (x, r) -> Q x) ->
  forall bs l r, dec_many d k bs = Ok (l, r) -> length l = k /\ Forall Q l.
Proof.
  intros Hd; induction k as [|k IH]; intros bs l r H; cbn [dec_many] in H.
  - injection H as <- <-; split; [reflexivity|constructor].
  - apply bind_ok_inv in H as ([a r1] & H1 & H); cbv beta iota in H.
    apply bind_ok_inv in H as ([l' r2] & H2 & H); injection H as <- <-.
    destruct (IH r1 l' r2 H2) as [Hl HF].
    split; [cbn; congruence|constructor; [exact (Hd _ _ _ H1)|exact HF]].
Qed.

Lemma dec_pattern_arity_ok fuel :
  forall bs p r, dec_pattern fuel bs = Ok (p, r) -> arity_ok p = true.
Proof.
  induction fuel as [|f IH]; intros bs p r H; cbn [dec_pattern] in H; [discriminate|].
  destruct bs as [|b bs]; [discriminate|].
  destruct b; try discriminate.
  - apply bind_ok_inv in H as ([c r1] & _ & H); cbv beta iota in H.
    apply bind_ok_inv in H as ([k r2] & _ & H); cbv beta iota in H.
    destruct (Nat.eqb (N.to_nat k) (arity c)) eqn:Ek; cbn [negb] in H; [|discriminate].
    apply bind_ok_inv in H as ([args r3] & H3 & H); injection H as <- <-.
    destruct (dec_many_inv _ (fun q => arity_ok q = true) _ IH _ _ _ H3) as [Hl HF].
    cbn [arity_ok]; rewrite Hl, Ek; cbn [andb].
    apply List.forallb_forall; intros q Hq; rewrite List.Forall_forall in HF; auto.
  - apply bind_ok_inv in H as ([s r1] & _ & H); injection H as <- <-; reflexivity.
  - apply bind_ok_inv in H as ([n r1] & _ & H); cbv beta iota in H.
    apply bind_ok_inv in H as ([s r2] & _ & H); injection H as <- <-; reflexivity.
Qed.

Lemma read_body_arity_ok version bs p :
  read_body version bs = Ok p -> arity_ok p = true.
Proof.
  unfold read_body; intro H.
  apply bind_ok_inv in H as ([q [|b r]] & H1 & H); cbv beta iota in H; [|discriminate].
  injection H as <-; exact (dec_pattern_arity_ok _ _ _ _ H1).
Qed.

(* ------------------------------------------------------------------------- *)
(** ** The header comparison and the steps of [read_pattern_from_file] *)

Lemma byte_eqb_true (a b : byte) : byte_eqb a b = true -> a = b.
Proof.
  unfold byte_eqb; intro H; apply N.eqb_eq in H.
  assert (E : Byte.of_N (Byte.to_N a) = Byte.of_N (Byte.to_N b)) by now rewrite H.
  rewrite !Byte.of_to_N in E; congruence.
Qed.

Lemma byte_eqb_refl (a : byte) : byte_eqb a a = true.
Proof. apply N.eqb_refl. Qed.

(** [std_equal header ref] holds exactly when [header] is a prefix of [ref]. *)
Lemma std_equal_prefix (header ref : bytes) :
  std_equal header ref = true <-> exists t, ref = header ++ t.
Proof.
  revert ref; induction header as [|x header IH]; intros [|y ref]; cbn [std_equal].
  - split; [exists []; reflexivity|reflexivity].
  - split; [exists (y :: ref); reflexivity|reflexivity].
  - split; [discriminate|intros [t Ht]; discriminate].
  - rewrite andb_true_iff, IH; split.
    + intros [Hb [t Ht]]; apply byte_eqb_true in Hb; subst; exists t; reflexivity.
    + intros [t Ht]; injection Ht as -> Ht; split; [apply byte_eqb_refl|eauto].
Qed.

Lemma std_equal_same_length (header ref : bytes) :
  length header = length ref -> std_equal header ref = true -> header = ref.
Proof.
  intros Hl H; apply std_equal_prefix in H as [t ->].
  rewrite length_app in Hl; destruct t; [symmetry; apply app_nil_r|cbn in Hl; lia].
Qed.

Lemma read_version_no_invalid (bs : bytes) : no_invalid (read_version bs).
Proof.
  unfold read_version.
  do 6 (destruct bs as [|? bs]; [apply no_invalid_format|]); apply no_invalid_ok.
Qed.

Lemma bad_header_old_version_msg : bad_header_msg <> old_version_msg.
Proof. discriminate. Qed.

Lemma bad_header_missing_size_msg : bad_header_msg <> missing_size_msg.
Proof. discriminate. Qed.

Lemma old_version_missing_size_msg : old_version_msg <> missing_size_msg.
Proof. discriminate. Qed.

Section ReadSteps.
Variable source : Type.
Variable read : source -> N -> bytes * source.
Variable s0 s1 : source.
Variable header : bytes.
Hypothesis R1 : read s0 5 = (header, s1).

Lemma rpf_bad_header :
  std_equal header magic_header = false ->
  read_pattern_from_file source read (FileLike s0)
  = (Err (InvalidArgument bad_header_msg), FileLike s1).
Proof. intro H; cbn [read_pattern_from_file]; rewrite R1, H; reflexivity. Qed.

Variable s2 : source.
Variable vbytes : bytes.
Hypothesis R2 : read s1 6 = (vbytes, s2).
Variable v : binary_version.
Variable vrest : bytes.
Hypothesis HV : read_version vbytes = Ok (v, vrest).

Lemma rpf_old_version :
  std_equal header magic_header = true ->
  version_ltb v version_1_2_0 = true ->
  read_pattern_from_file source read (FileLike s0)
  = (Err (InvalidArgument old_version_msg), FileLike s2).
Proof.
  intros H Hlt; cbn [read_pattern_from_file]; rewrite R1, H; cbn [negb].
  rewrite R2, HV, Hlt; reflexivity.
Qed.

Variable s3 : source.
Variable size_bytes : bytes.
Hypothesis R3 : read s2 8 = (size_bytes, s3).

Lemma rpf_missing_size :
  std_equal header magic_header = true ->
  version_ltb v version_1_2_0 = false ->
  fst (read_pattern_size_unchecked size_bytes) = 0 ->
  read_pattern_from_file source read (FileLike s0)
  = (Err (InvalidArgument missing_size_msg), FileLike s3).
Proof.
  intros H Hlt H0; cbn [read_pattern_from_file]; rewrite R1, H; cbn [negb].
  rewrite R2, HV, Hlt, R3, H0; reflexivity.
Qed.

Variable s4 : source.
Variable body : bytes.
Hypothesis R4 : read s3 (fst (read_pattern_size_unchecked size_bytes)) = (body, s4).

Lemma rpf_body :
  std_equal header magic_header = true ->
  version_ltb v version_1_2_0 = false ->
  fst (read_pattern_size_unchecked size_bytes) <> 0 ->
  read_pattern_from_file source read (FileLike s0) = (read_body v body, FileLike s4).
Proof.
  intros H Hlt H0; cbn [read_pattern_from_file]; rewrite R1, H; cbn [negb].
  rewrite R2, HV, Hlt, R3.
  destruct (N.eqb_spec (fst (read_pattern_size_unchecked size_bytes)) 0);
    [contradiction|].
  rewrite R4; reflexivity.
Qed.
End ReadSteps.

(** The [std::invalid_argument]s of [read_pattern_from_file] are its three
    checks; the header one is raised only when the header comparison fails. *)
Lemma rpf_errors (source : Type) (read : source -> N -> bytes * source) (s0 : source) :
  forall msg, fst (read_pattern_from_file source read (FileLike s0))
              = Err (InvalidArgument msg) ->
  (msg = bad_header_msg /\ std_equal (fst (read s0 5)) magic_header = false)
  \/ msg = old_version_msg \/ msg = missing_size_msg.
Proof.
  intros msg; cbn [read_pattern_from_file].
  destruct (read s0 5) as [header s1].
  destruct (std_equal header magic_header) eqn:Eh; cbn [negb fst];
    [|intro E; injection E as <-; auto].
  destruct (read s1 6) as [vb s2]; destruct (read_version vb) as [[v vr]|e] eqn:Ev;
    cbn [fst];
    [|intro E; injection E as ->; exfalso; exact (read_version_no_invalid vb msg Ev)].
  destruct (version_ltb v version_1_2_0); cbn [fst]; [intro E; injection E as <-; auto|].
  destruct (read s2 8) as [sb s3].
  destruct (fst (read_pattern_size_unchecked sb) =? 0); cbn [fst];
    [intro E; injection E as <-; auto|].
  destruct (read s3 _) as [b s4]; cbn [fst].
  intro E; exfalso; exact (read_body_no_invalid v b msg E).
Qed.

(** Every object of a tree in a well-formed heap is an existing one. *)
Lemma repr_below (h : heap) (l : loc) (t : pattern) :
  heap_wf h -> repr h l t -> repr_at (fun y => (y < next_loc h)%nat) h l t.
Proof.
  intros Hwf Hr.
  induction Hr using repr_at_mut with
    (P1 := fun ls ts _ => repr_list_at (fun y => (y < next_loc h)%nat) h ls ts);
    try (econstructor; eauto; apply (Hwf _ _ e); fail).
Qed.

(** A version at or above 1.2.0 never gives the old-version error. *)
Lemma rpf_version_passes (source : Type) (read : source -> N -> bytes * source)
  (s0 s1 s2 : source) (header vbytes vrest : bytes) (v : binary_version) :
  read s0 5 = (header, s1) -> std_equal header magic_header = true ->
  read s1 6 = (vbytes, s2) -> read_version vbytes = Ok (v, vrest) ->
  version_ltb v version_1_2_0 = false ->
  fst (read_pattern_from_file source read (FileLike s0))
  <> Err (InvalidArgument old_version_msg).
Proof.
  intros R1 H R2 HV Hlt; cbn [read_pattern_from_file]; rewrite R1, H; cbn [negb].
  rewrite R2, HV, Hlt.
  destruct (read s2 8) as [sb s3].
  destruct (fst (read_pattern_size_unchecked sb) =? 0); cbn [fst].
  - intro E; apply old_version_missing_size_msg; congruence.
  - destruct (read s3 _) as [b s4]; cbn [fst]; apply read_body_no_invalid.
Qed.

(** Every pattern that [read_pattern_from_file] returns has passed the
    decoder's arity check. *)
Lemma rpf_arity_ok (source : Type) (read : source -> N -> bytes * source) (s0 : source)
  (p : pattern) :
  fst (read_pattern_from_file source read (FileLike s0)) = Ok p -> arity_ok p = true.
Proof.
  cbn [read_pattern_from_file].
  destruct (read s0 5) as [header s1]; destruct (negb _); [discriminate|].
  destruct (read s1 6) as [vb s2]; destruct (read_version vb) as [[v vr]|e];
    [|discriminate].
  destruct (version_ltb v version_1_2_0); [discriminate|].
  destruct (read s2 8) as [sb s3]; destruct (_ =? 0); [discriminate|].
  destruct (read s3 _) as [b s4]; cbn [fst]; apply read_body_arity_ok.
Qed.

Lemma bytes_io_skip_framed (buf xs rest : bytes) (pos : nat) :
  skipn pos buf = xs ++ rest -> skipn (pos + length xs) buf = rest.
Proof.
  intro Hs; rewrite Nat.add_comm, <- skipn_skipn, Hs, skipn_app, Nat.sub_diag, skipn_all.
  reflexivity.
Qed.

(* ------------------------------------------------------------------------- *)
(** * The claims *)

(** C1: for every pattern of the data model whose body fits the size field,
    deserializing the bytes of [serialize(p, emit_size=true)] with
    [strip_raw_term=false] gives back [p]; with [strip_raw_term=true] it gives
    [p] with its root raw-term wrapper stripped, so [p] itself whenever [p] has
    no such wrapper. *)
Theorem C1_serialize_deserialize_roundtrip (p : pattern) :
  wf_pattern p = true ->
  fits_u64 (N.of_nat (length (enc_pattern p))) = true ->
  Pattern_deserialize (Pattern_serialize p true) false = Ok p
  /\ Pattern_deserialize (Pattern_serialize p true) true = Ok (strip_raw_term p)
  /\ (strip_raw_term p = p -> Pattern_deserialize (Pattern_serialize p true) true = Ok p).
Proof.
  intros Hwf Hfit.
  pose proof (deserialize_emitted p false Hwf Hfit) as Hf.
  pose proof (deserialize_emitted p true Hwf Hfit) as Ht.
  split; [exact Hf|]; split; [exact Ht|].
  intro Hs; rewrite Ht, Hs; reflexivity.
Qed.

Lemma C1_witness :
  wf_pattern p1 = true /\ fits_u64 (N.of_nat (length (enc_pattern p1))) = true
  /\ Pattern_deserialize (Pattern_serialize p1 true) false = Ok p1
  /\ Pattern_deserialize (Pattern_serialize p1 true) true = Ok (strip_raw_term p1)
  /\ (strip_raw_term p1 = p1 -> Pattern_deserialize (Pattern_serialize p1 true) true = Ok p1).
Proof.
  assert (H1 : wf_pattern p1 = true) by reflexivity.
  assert (H2 : fits_u64 (N.of_nat (length (enc_pattern p1))) = true) by (vm_compute; reflexivity).
  split; [exact H1|]; split; [exact H2|].
  exact (C1_serialize_deserialize_roundtrip p1 H1 H2).
Defined.

(** C2 (counterexample): for the raw-term pattern [raw_p], [read_from] on a
    [BytesIO] of [serialize(raw_p, emit_size=true)] and [deserialize] of the
    same bytes (with its default [strip_raw_term=True]) give different
    results: [read_pattern_from_file] never strips, [deserialize] does. *)
Lemma C2_counterexample :
  fst (read_from_bytes_io (Pattern_serialize raw_p true))
  <> Pattern_deserialize (Pattern_serialize raw_p true) true.
Proof. vm_compute; congruence. Qed.

(** C2 (amended): for every pattern of the data model and every [BytesIO]
    whose bytes at the cursor are [serialize(p, emit_size=true)] followed by
    anything, [read_from] returns [p], which is what [deserialize] returns
    with [strip_raw_term=false], and leaves the cursor just after the framed
    bytes, where the following bytes start.  [deserialize] with its default
    [strip_raw_term=True] returns [p] with its root raw-term wrapper stripped. *)
Theorem C2_read_from_matches_deserialize (p : pattern) (buf rest : bytes) (pos : nat) :
  wf_pattern p = true ->
  fits_u64 (N.of_nat (length (enc_pattern p))) = true ->
  skipn pos buf = Pattern_serialize p true ++ rest ->
  read_pattern_from_file bytes_io bytes_io_read (FileLike (mk_bytes_io buf pos))
  = (Ok p, FileLike (mk_bytes_io buf (pos + length (Pattern_serialize p true))))
  /\ skipn (pos + length (Pattern_serialize p true)) buf = rest
  /\ Pattern_deserialize (Pattern_serialize p true) false = Ok p
  /\ Pattern_deserialize (Pattern_serialize p true) true = Ok (strip_raw_term p).
Proof.
  intros Hwf Hfit Hs.
  split; [exact (read_from_framed p buf rest pos Hwf Hfit Hs)|].
  split; [exact (bytes_io_skip_framed buf _ rest pos Hs)|].
  split; [exact (deserialize_emitted p false Hwf Hfit)|].
  exact (deserialize_emitted p true Hwf Hfit).
Qed.

(** Two framed patterns written one after the other, read back in turn. *)
Lemma C2_witness :
  let first := Pattern_serialize p1 true in
  let second := Pattern_serialize raw_p true in
  read_pattern_from_file bytes_io bytes_io_read (FileLike (mk_bytes_io (first ++ second) 0))
  = (Ok p1, FileLike (mk_bytes_io (first ++ second) (0 + length first)))
  /\ skipn (0 + length first) (first ++ second) = second
  /\ Pattern_deserialize first false = Ok p1
  /\ Pattern_deserialize first true = Ok (strip_raw_term p1).
Proof.
  cbv zeta.
  apply (C2_read_from_matches_deserialize p1); [reflexivity|vm_compute; reflexivity|].
  reflexivity.
Defined.

(** C3 (counterexample): an [io.BytesIO] holding the frame of [p1] with a size
    field five bytes larger than its body.  The body read [read(size)] returns
    fewer than [size] bytes, at the end of the stream, and [read_from] accepts
    them and returns [p1]: no short-read error is raised. *)
Lemma C3_counterexample :
  let n := N.of_nat (length (enc_pattern p1)) + 5 in
  let buf := magic_header ++ version_bytes current_version ++ u64 n ++ enc_pattern p1 in
  bytes_io_read (mk_bytes_io buf 19) n = (enc_pattern p1, mk_bytes_io buf (length buf))
  /\ read_pattern_from_file bytes_io bytes_io_read (FileLike (mk_bytes_io buf 0))
     = (Ok p1, FileLike (mk_bytes_io buf (length buf))).
Proof. vm_compute; split; reflexivity. Qed.

(** C3 (amended): [read_from] does not check how many bytes a [read(n)]
    returned.  For every byte source whose header, version and size reads
    return full-length fields that pass the three checks, the result is the
    body decoder applied to whatever the body read [read(size)] returned,
    whatever its length: nothing compares it with [size]. *)
Theorem C3_body_read_unchecked (source : Type) (read : source -> N -> bytes * source)
  (s0 s1 s2 s3 s4 : source) (vbytes vrest sbytes body : bytes) (v : binary_version) :
  read s0 5 = (magic_header, s1) ->
  read s1 6 = (vbytes, s2) -> length vbytes = 6%nat ->
  read_version vbytes = Ok (v, vrest) -> version_ltb v version_1_2_0 = false ->
  read s2 8 = (sbytes, s3) -> length sbytes = 8%nat ->
  fst (read_pattern_size_unchecked sbytes) <> 0 ->
  read s3 (fst (read_pattern_size_unchecked sbytes)) = (body, s4) ->
  read_pattern_from_file source read (FileLike s0) = (read_body v body, FileLike s4).
Proof.
  intros R1 R2 _ HV Hlt R3 _ Hn R4.
  exact (rpf_body source read s0 s1 magic_header R1 s2 vbytes R2 v vrest HV
           s3 sbytes R3 s4 body R4 eq_refl Hlt Hn).
Qed.

(** The [io.BytesIO] of the counterexample: its body read returns the whole
    encoding of [p1], five bytes fewer than requested. *)
Lemma C3_witness :
  read_pattern_from_file bytes_io bytes_io_read
    (FileLike (mk_bytes_io
       (magic_header ++ version_bytes current_version
        ++ u64 (N.of_nat (length (enc_pattern p1)) + 5) ++ enc_pattern p1) 0))
  = (read_body current_version (enc_pattern p1),
     FileLike (mk_bytes_io
       (magic_header ++ version_bytes current_version
        ++ u64 (N.of_nat (length (enc_pattern p1)) + 5) ++ enc_pattern p1)
       (19 + length (enc_pattern p1)))).
Proof.
  set (buf := magic_header ++ version_bytes current_version
               ++ u64 (N.of_nat (length (enc_pattern p1)) + 5) ++ enc_pattern p1).
  apply (C3_body_read_unchecked bytes_io bytes_io_read (mk_bytes_io buf 0)
           (mk_bytes_io buf 5) (mk_bytes_io buf 11) (mk_bytes_io buf 19)
           (mk_bytes_io buf (19 + length (enc_pattern p1)))
           (version_bytes current_version) [] (u64 (N.of_nat (length (enc_pattern p1)) + 5))
           (enc_pattern p1) current_version);
    first [vm_compute; reflexivity | vm_compute; discriminate].
Defined.

(** C4: for every byte source whose first [read(5)] returns five bytes that
    differ from the magic header, [read_from] fails with the bad-header
    [std::invalid_argument] (the spec's [FormatError]), and the source is left
    in the state that one 5-byte read produced: nothing else is read. *)
Theorem C4_bad_magic_rejected (source : Type) (read : source -> N -> bytes * source)
  (s0 s1 : source) (header : bytes) :
  read s0 5 = (header, s1) -> length header = 5%nat -> header <> magic_header ->
  read_pattern_from_file source read (FileLike s0)
  = (Err (InvalidArgument bad_header_msg), FileLike s1).
Proof.
  intros R1 Hl Hne. apply (rpf_bad_header source read s0 s1 header R1).
  destruct (std_equal header magic_header) eqn:E; [|reflexivity].
  exfalso; exact (Hne (std_equal_same_length header magic_header Hl E)).
Qed.

(** A [BytesIO] holding [68 65 6c 6c 6f 00]: the cursor stops at 5. *)
Lemma C4_witness :
  read_pattern_from_file bytes_io bytes_io_read
    (FileLike (mk_bytes_io [x68; x65; x6c; x6c; x6f; x00] 0))
  = (Err (InvalidArgument bad_header_msg),
     FileLike (mk_bytes_io [x68; x65; x6c; x6c; x6f; x00] 5)).
Proof.
  apply (C4_bad_magic_rejected bytes_io bytes_io_read _ _ [x68; x65; x6c; x6c; x6f]).
  - reflexivity.
  - reflexivity.
  - vm_compute; discriminate.
Defined.

(** C5: for every byte source whose header passes and whose version field
    decodes to a version below 1.2.0, [read_from] fails with the old-version
    [std::invalid_argument] (the spec's [UnsupportedVersionError]) whatever
    follows, after reading nothing past the version field; a version of 1.2.0
    or above never gives that error. *)
Theorem C5_old_version_rejected (source : Type) (read : source -> N -> bytes * source)
  (s0 s1 s2 : source) (header vbytes vrest : bytes) (v : binary_version) :
  read s0 5 = (header, s1) -> std_equal header magic_header = true ->
  read s1 6 = (vbytes, s2) -> read_version vbytes = Ok (v, vrest) ->
  (version_ltb v version_1_2_0 = true ->
   read_pattern_from_file source read (FileLike s0)
   = (Err (InvalidArgument old_version_msg), FileLike s2))
  /\ (version_ltb v version_1_2_0 = false ->
      fst (read_pattern_from_file source read (FileLike s0))
      <> Err (InvalidArgument old_version_msg)).
Proof.
  intros R1 H R2 HV; split.
  - exact (rpf_old_version source read s0 s1 header R1 s2 vbytes R2 v vrest HV H).
  - exact (rpf_version_passes source read s0 s1 s2 header vbytes vrest v R1 H R2 HV).
Qed.

(** A [BytesIO] holding a stream of version 1.1.0 that is otherwise the
    framed [p1]. *)
Lemma C5_witness :
  version_ltb (mk_version 1 1 0) version_1_2_0 = true
  /\ read_pattern_from_file bytes_io bytes_io_read
       (FileLike (mk_bytes_io (p1_stream (mk_version 1 1 0) 50) 0))
     = (Err (InvalidArgument old_version_msg),
        FileLike (mk_bytes_io (p1_stream (mk_version 1 1 0) 50) 11)).
Proof.
  split; [reflexivity|].
  apply (C5_old_version_rejected bytes_io bytes_io_read _
           (mk_bytes_io (p1_stream (mk_version 1 1 0) 50) 5) _
           magic_header (version_bytes (mk_version 1 1 0)) [] (mk_version 1 1 0));
    reflexivity.
Defined.

(** C6: for every byte source whose header passes, whose version is 1.2.0 or
    above and whose 8-byte size field decodes to 0, [read_from] fails with the
    missing-size [std::invalid_argument] (the spec's [MissingSizeError]) and
    leaves the source as the size read left it: no body is read or decoded. *)
Theorem C6_zero_size_rejected (source : Type) (read : source -> N -> bytes * source)
  (s0 s1 s2 s3 : source) (header vbytes vrest size_bytes : bytes) (v : binary_version) :
  read s0 5 = (header, s1) -> std_equal header magic_header = true ->
  read s1 6 = (vbytes, s2) -> read_version vbytes = Ok (v, vrest) ->
  version_ltb v version_1_2_0 = false ->
  read s2 8 = (size_bytes, s3) -> fst (read_pattern_size_unchecked size_bytes) = 0 ->
  read_pattern_from_file source read (FileLike s0)
  = (Err (InvalidArgument missing_size_msg), FileLike s3).
Proof.
  intros R1 H R2 HV Hlt R3 H0.
  exact (rpf_missing_size source read s0 s1 header R1 s2 vbytes R2 v vrest HV s3
           size_bytes R3 H Hlt H0).
Qed.

(** A [BytesIO] holding a version 1.2.0 stream with a zero size field before
    the body of [p1]: the cursor stops at 19, before the body. *)
Lemma C6_witness :
  read_pattern_from_file bytes_io bytes_io_read
    (FileLike (mk_bytes_io (p1_stream version_1_2_0 0) 0))
  = (Err (InvalidArgument missing_size_msg),
     FileLike (mk_bytes_io (p1_stream version_1_2_0 0) 19)).
Proof.
  apply (C6_zero_size_rejected bytes_io bytes_io_read _
           (mk_bytes_io (p1_stream version_1_2_0 0) 5)
           (mk_bytes_io (p1_stream version_1_2_0 0) 11) _
           magic_header (version_bytes version_1_2_0) [] (u64 0) version_1_2_0);
    reflexivity.
Defined.

(** C10: for every argument without a [read] attribute, [read_from] raises
    [py::type_error] before any read. *)
Theorem C10_not_file_like_type_error (source : Type) (read : source -> N -> bytes * source) :
  read_pattern_from_file source read NotFileLike
  = (Err (TypeError not_file_like_msg), NotFileLike).
Proof. reflexivity. Qed.

(** C7: for every two pattern objects, in any two heaps, that are the same
    tree, [serialize] gives the same bytes for the same [emit_size]: the
    bytes of [Pattern_serialize] on the tree.  Object identity and the order
    the objects were created in do not matter. *)
Theorem C7_serialize_structural (fuel : nat) (h1 h2 : heap) (l1 l2 : loc) (t : pattern)
  (emit_size : bool) :
  repr h1 l1 t -> repr h2 l2 t -> (height t <= fuel)%nat ->
  Pattern_serialize_obj fuel h1 l1 emit_size = Pattern_serialize_obj fuel h2 l2 emit_size
  /\ Pattern_serialize_obj fuel h1 l1 emit_size = Some (Pattern_serialize t emit_size).
Proof.
  intros R1 R2 Hh.
  rewrite (Pattern_serialize_obj_repr fuel h1 l1 t emit_size R1 Hh).
  rewrite (Pattern_serialize_obj_repr fuel h2 l2 t emit_size R2 Hh).
  split; reflexivity.
Qed.

(** [p1] built in the two orders of [build_p1_children_last] and
    [build_p1_children_first]. *)
Lemma C7_witness :
  Pattern_serialize_obj 2 (fst build_p1_children_last) (snd build_p1_children_last) true
  = Pattern_serialize_obj 2 (fst build_p1_children_first) (snd build_p1_children_first) true
  /\ Pattern_serialize_obj 2 (fst build_p1_children_last) (snd build_p1_children_last) true
     = Some (Pattern_serialize p1 true).
Proof.
  apply (C7_serialize_structural 2 _ _ _ _ p1 true).
  - repeat first [exact I | reflexivity | econstructor].
  - repeat first [exact I | reflexivity | econstructor].
  - cbn; lia.
Defined.

(** C8: for every pattern object [p] in a well-formed heap, [substitute(m)]
    and [desugar_associative()] return a new object [p2] and change nothing
    that existed: afterwards [p] is still the same tree, every object of [p]
    is an old one, every object of [p2] is a new one (so the two share no
    object), and [p2] is the substituted, respectively expanded, tree. *)
Theorem C8_substitute_desugar_fresh (binds : symbol -> string -> bool)
  (assoc_of : symbol -> option assoc) (m : list (string * pattern))
  (fuel : nat) (h : heap) (l : loc) (t : pattern) :
  heap_wf h -> repr h l t -> (height t <= fuel)%nat ->
  (exists l2 h2, substitute_node binds fuel m h l = Some (l2, h2) /\ extends h h2
     /\ repr_at (fun y => (y < next_loc h)%nat) h2 l t
     /\ repr_at (fun y => (next_loc h <= y)%nat) h2 l2 (psubst binds m t))
  /\ (exists l2 h2, desugar_node assoc_of fuel h l = Some (l2, h2) /\ extends h h2
     /\ repr_at (fun y => (y < next_loc h)%nat) h2 l t
     /\ repr_at (fun y => (next_loc h <= y)%nat) h2 l2 (pdesugar assoc_of t)).
Proof.
  intros Hwf Hr Hh. pose proof (repr_below h l t Hwf Hr) as Hb. split.
  - destruct (substitute_node_new binds t m fuel h l Hwf Hr Hh)
      as (l2 & h2 & E & _ & X & R).
    exists l2, h2; split; [exact E|]; split; [exact X|].
    split; [exact (repr_at_extend _ h h2 Hwf X l t Hb)|exact R].
  - destruct (desugar_node_new assoc_of t fuel h l Hwf Hr Hh)
      as (l2 & h2 & E & _ & X & R).
    exists l2, h2; split; [exact E|]; split; [exact X|].
    split; [exact (repr_at_extend _ h h2 Hwf X l t Hb)|exact R].
Qed.

(** [p1] with [X] replaced by ["y"], and [f] taken as right-associative. *)
Lemma C8_witness :
  let h := fst build_p1_children_last in
  let l := snd build_p1_children_last in
  let m := [("X"%string, StringPattern "y")] in
  (exists l2 h2, substitute_node (fun _ _ => false) 2 m h l = Some (l2, h2)
     /\ extends h h2
     /\ repr_at (fun y => (y < next_loc h)%nat) h2 l p1
     /\ repr_at (fun y => (next_loc h <= y)%nat) h2 l2 (psubst (fun _ _ => false) m p1))
  /\ (exists l2 h2, desugar_node (fun _ => Some RightAssoc) 2 h l = Some (l2, h2)
     /\ extends h h2
     /\ repr_at (fun y => (y < next_loc h)%nat) h2 l p1
     /\ repr_at (fun y => (next_loc h <= y)%nat) h2 l2
          (pdesugar (fun _ => Some RightAssoc) p1)).
Proof.
  cbv zeta.
  apply (C8_substitute_desugar_fresh _ _ _ 2 _ _ p1).
  - unfold heap_wf; apply (bool_decide_unpack _); vm_compute; reflexivity.
  - repeat first [exact I | reflexivity | econstructor].
  - cbn; lia.
Defined.

(** C9 (counterexample): [CompositePattern(f)] for the binary [f], given one
    argument by [add_argument], is a composite pattern object with one
    argument; no error is raised (the builder returns a heap, not a result),
    and the object breaks the arity invariant. *)
Lemma C9_counterexample :
  repr (fst build_short_f) (snd build_short_f) (CompositePattern sym_f [StringPattern "a"])
  /\ arity_ok (CompositePattern sym_f [StringPattern "a"]) = false.
Proof.
  split; [|reflexivity].
  repeat first [exact I | reflexivity | econstructor].
Qed.

(** C9 (amended): decoding checks the arity: a composite pattern whose
    argument count differs from its symbol's arity fails with [ArityError], so
    every pattern that [read_from] returns satisfies the arity invariant.
    The builder does not check: [add_argument] appends its argument to a
    composite pattern whatever the symbol's arity, and raises nothing. *)
Theorem C9_decoder_checks_arity :
  (forall (source : Type) (read : source -> N -> bytes * source) (s0 : source) (p : pattern),
     fst (read_pattern_from_file source read (FileLike s0)) = Ok p -> arity_ok p = true)
  /\ (forall f bs c r1 k r2,
        dec_symbol f bs = Ok (c, r1) -> dec_u64 r1 = Ok (k, r2) ->
        N.to_nat k <> arity c -> dec_pattern (S f) (x04 :: bs) = Err ArityError)
  /\ (forall h self c args arg,
        cells h !! self = Some (NComposite c args) ->
        cells (add_argument h self arg) !! self = Some (NComposite c (args ++ [arg]))).
Proof.
  split; [exact rpf_arity_ok|split].
  - intros f bs c r1 k r2 Hc Hk Hne; cbn [dec_pattern]; rewrite Hc; cbn [bind].
    rewrite Hk; cbn [bind].
    destruct (Nat.eqb_spec (N.to_nat k) (arity c)); [contradiction|reflexivity].
  - intros h self c args arg Hs; unfold add_argument; rewrite Hs; cbn [cells].
    apply lookup_insert_eq.
Qed.

(** Reading [p1] back from a [BytesIO], and adding an argument to a new
    [CompositePattern(f)]. *)
Lemma C9_witness :
  arity_ok p1 = true
  /\ cells (add_argument (snd (CompositePattern_create empty_heap sym_f)) 0 1)
       !! 0%nat = Some (NComposite sym_f ([] ++ [1%nat])).
Proof.
  destruct C9_decoder_checks_arity as [Hread [_ Hadd]].
  split.
  - apply (Hread bytes_io bytes_io_read (mk_bytes_io (Pattern_serialize p1 true) 0)).
    vm_compute; reflexivity.
  - apply Hadd; reflexivity.
Defined.

(* ------------------------------------------------------------------------- *)
(** * Further properties of the bindings *)

(** ** The kinds of error the decoders raise *)

Section DecoderErrors.
Variable Q : error -> Prop.
Hypothesis Q_format : forall m, Q (FormatError m).
Hypothesis Q_arity : Q ArityError.

Lemma err_in_bind {A B} (m : result A) (k : A -> result B) :
  err_in Q m -> (forall a, err_in Q (k a)) -> err_in Q (bind m k).
Proof.
  intros Hm Hk e; destruct m as [a|e']; cbn; [apply Hk|].
  intro E; injection E as ->; exact (Hm e eq_refl).
Qed.

Lemma err_in_ok {A} (a : A) : err_in Q (Ok a).
Proof. intros e; discriminate. Qed.

Lemma err_in_format {A} (s : string) : err_in Q (@Err A (FormatError s)).
Proof. intros e E; injection E as <-; apply Q_format. Qed.

Lemma err_in_arity {A} : err_in Q (@Err A ArityError).
Proof. intros e E; injection E as <-; exact Q_arity. Qed.

Create HintDb err_in_db.
#[local] Hint Resolve err_in_ok err_in_format err_in_arity : err_in_db.

Ltac err_in_step :=
  first [ solve [eauto with err_in_db] | apply err_in_bind | intros [? ?]
        | progress cbv beta iota ].

Lemma dec_u64_err_in bs : err_in Q (dec_u64 bs).
Proof. unfold dec_u64; destruct (Nat.ltb _ _); eauto with err_in_db. Qed.

Lemma take_exact_err_in n bs : err_in Q (take_exact n bs).
Proof. unfold take_exact; destruct (_ <? _); eauto with err_in_db. Qed.

#[local] Hint Resolve dec_u64_err_in take_exact_err_in : err_in_db.

Lemma dec_str_err_in bs : err_in Q (dec_str bs).
Proof. unfold dec_str; repeat err_in_step. Qed.

#[local] Hint Resolve dec_str_err_in : err_in_db.

Lemma dec_value_type_err_in bs : err_in Q (dec_value_type bs).
Proof.
  unfold dec_value_type; destruct bs as [|b r]; [apply err_in_format|].
  destruct (cat_of_code _); repeat err_in_step.
Qed.

Lemma dec_many_err_in {A} (d : bytes -> result (A * bytes)) k :
  (forall bs, err_in Q (d bs)) -> forall bs, err_in Q (dec_many d k bs).
Proof.
  intros Hd; induction k as [|k IH]; intro bs; cbn [dec_many];
    repeat first [err_in_step | apply Hd | apply IH].
Qed.

#[local] Hint Resolve dec_value_type_err_in : err_in_db.

Lemma dec_sort_err_in fuel : forall bs, err_in Q (dec_sort fuel bs).
Proof.
  induction fuel as [|f IH]; intro bs; cbn [dec_sort]; [apply err_in_format|].
  destruct bs as [|b r]; [apply err_in_format|].
  destruct b; repeat first [err_in_step | apply dec_many_err_in; exact IH].
Qed.

#[local] Hint Resolve dec_sort_err_in : err_in_db.

Lemma dec_symbol_err_in fuel bs : err_in Q (dec_symbol fuel bs).
Proof.
  unfold dec_symbol, dec_sorts.
  repeat first [ err_in_step | apply dec_many_err_in; apply dec_sort_err_in
               | match goal with |- err_in Q (match ?x with _ => _ end) => destruct x end ].
Qed.

#[local] Hint Resolve dec_symbol_err_in : err_in_db.

Lemma dec_pattern_err_in fuel : forall bs, err_in Q (dec_pattern fuel bs).
Proof.
  induction fuel as [|f IH]; intro bs; cbn [dec_pattern]; [apply err_in_format|].
  destruct bs as [|b r]; [apply err_in_format|].
  destruct b; repeat first [ err_in_step | apply dec_many_err_in; exact IH
                           | match goal with |- err_in Q (if ?x then _ else _) => destruct x end ].
Qed.

Lemma read_body_err_in version bs : err_in Q (read_body version bs).
Proof.
  unfold read_body; apply err_in_bind; [apply dec_pattern_err_in|].
  intros [p [|b r]]; cbv beta iota; eauto with err_in_db.
Qed.

Lemma read_version_err_in (bs : bytes) : err_in Q (read_version bs).
Proof.
  unfold read_version.
  do 6 (destruct bs as [|? bs]; [apply err_in_format|]); apply err_in_ok.
Qed.
End DecoderErrors.

(** ** Framing with any version and any size *)

Lemma le_decode_encode_mod (k : nat) (n : N) :
  le_decode (le_encode k n) = n mod 256 ^ N.of_nat k.
Proof.
  revert n; induction k as [|k IH]; intro n.
  - cbn. rewrite N.mod_1_r. reflexivity.
  - cbn [le_encode le_decode]. rewrite byte_of_N_to_N, IH.
    rewrite Nat2N.inj_succ, N.pow_succ_r'.
    rewrite N.Div0.mod_mul_r; reflexivity.
Qed.

Lemma read_version_bytes (v : binary_version) (rest : bytes) :
  version_fits v = true -> read_version (version_bytes v ++ rest) = Ok (v, rest).
Proof.
  destruct v as [a b c]; unfold version_fits; cbn [v_major v_minor v_patch].
  intro H; apply andb_prop in H as [H Hc]; apply andb_prop in H as [Ha Hb].
  apply N.ltb_lt in Ha, Hb, Hc.
  unfold version_bytes; cbn [v_major v_minor v_patch le_encode app].
  unfold read_version.
  replace (le_decode [byte_of_N a; byte_of_N (a / 256)]) with (le_decode (le_encode 2 a))
    by reflexivity.
  replace (le_decode [byte_of_N b; byte_of_N (b / 256)]) with (le_decode (le_encode 2 b))
    by reflexivity.
  replace (le_decode [byte_of_N c; byte_of_N (c / 256)]) with (le_decode (le_encode 2 c))
    by reflexivity.
  rewrite !le_decode_encode by (cbn; lia). reflexivity.
Qed.

Lemma version_bytes_length (v : binary_version) : length (version_bytes v) = 6%nat.
Proof. unfold version_bytes; rewrite !length_app, !le_encode_length; reflexivity. Qed.

Lemma u64_length (n : N) : length (u64 n) = 8%nat.
Proof. unfold u64; apply le_encode_length. Qed.

Lemma size_field_u64 (n : N) (rest : bytes) :
  read_pattern_size_unchecked (u64 n ++ rest) = (n mod 2 ^ 64, rest).
Proof.
  unfold read_pattern_size_unchecked.
  rewrite <- (u64_length n) at 1 2.
  rewrite firstn_app, Nat.sub_diag, firstn_all, skipn_app, Nat.sub_diag, skipn_all.
  cbn [firstn skipn]; rewrite app_nil_r.
  unfold u64; rewrite le_decode_encode_mod; reflexivity.
Qed.

Lemma fits_u64_mod (n : N) : fits_u64 n = true -> n mod 2 ^ 64 = n.
Proof.
  intro H; apply fits_u64_lt in H; apply N.mod_small.
  replace (2 ^ 64) with (256 ^ N.of_nat 8) by reflexivity; exact H.
Qed.

(** A version field of fewer than six bytes. *)
Lemma read_version_short (bs : bytes) :
  (length bs < 6)%nat -> read_version bs = Err (FormatError "truncated version").
Proof.
  intro H; unfold read_version.
  do 6 (destruct bs as [|? bs]; [reflexivity|]); cbn [length] in H; lia.
Qed.

(** One framed object on a [BytesIO] read by [read_pattern_from_file]: header,
    any version the version check lets through, a nonzero size field, and the body bytes
    that [read(size)] returns, however many are left. *)
Lemma rpf_bytes_io_frame (v : binary_version) (n : N) (buf body : bytes) (pos : nat) :
  version_fits v = true -> version_ltb v version_1_2_0 = false ->
  fits_u64 n = true -> n <> 0 ->
  skipn pos buf = magic_header ++ version_bytes v ++ u64 n ++ body ->
  read_pattern_from_file bytes_io bytes_io_read (FileLike (mk_bytes_io buf pos))
  = (read_body v (firstn (N.to_nat n) body),
     FileLike (mk_bytes_io buf (pos + 19 + length (firstn (N.to_nat n) body)))).
Proof.
  intros Hv Hlt Hfit Hn Hs.
  destruct (bytes_io_read_prefix buf magic_header _ pos 5 Hs eq_refl) as [R1 S1].
  destruct (bytes_io_read_prefix buf (version_bytes v) _ _ 6 S1
              (eq_sym (version_bytes_length v))) as [R2 S2].
  destruct (bytes_io_read_prefix buf (u64 n) _ _ 8 S2 (eq_sym (u64_length n))) as [R3 S3].
  assert (HV : read_version (version_bytes v) = Ok (v, [])).
  { rewrite <- (app_nil_r (version_bytes v)) at 1; apply read_version_bytes, Hv. }
  assert (Hsz : fst (read_pattern_size_unchecked (u64 n)) = n).
  { rewrite <- (app_nil_r (u64 n)), size_field_u64; apply fits_u64_mod, Hfit. }
  rewrite version_bytes_length, u64_length in *.
  change (length magic_header) with 5%nat in *.
  assert (R4 : bytes_io_read (mk_bytes_io buf (pos + 5 + 6 + 8))
                 (fst (read_pattern_size_unchecked (u64 n)))
               = (firstn (N.to_nat n) body,
                  mk_bytes_io buf (pos + 5 + 6 + 8 + length (firstn (N.to_nat n) body)))).
  { rewrite Hsz; unfold bytes_io_read; cbn [bio_pos bio_buf]; rewrite S3; reflexivity. }
  rewrite (rpf_body _ _ _ _ _ R1 _ _ R2 _ _ HV _ _ R3 _ _ R4 eq_refl Hlt)
    by (rewrite Hsz; exact Hn).
  replace (pos + 5 + 6 + 8)%nat with (pos + 19)%nat by lia; reflexivity.
Qed.

(** ** The decoders read a prefix of their input *)

Lemma dec_u64_ext : dec_extends dec_u64 dec_u64.
Proof.
  intros bs x r ys H; unfold dec_u64 in *.
  destruct (Nat.ltb_spec (length bs) 8) as [Hl|Hl]; [discriminate|].
  injection H as <- <-.
  rewrite length_app; destruct (Nat.ltb_spec (length bs + length ys) 8); [lia|].
  rewrite firstn_app, skipn_app.
  replace (8 - length bs)%nat with 0%nat by lia; cbn [firstn skipn].
  rewrite app_nil_r; reflexivity.
Qed.

Lemma take_exact_ext (n : N) : dec_extends (take_exact n) (take_exact n).
Proof.
  intros bs x r ys H; unfold take_exact in *.
  destruct (N.ltb_spec (N.of_nat (length bs)) n) as [Hl|Hl]; [discriminate|].
  injection H as <- <-.
  rewrite length_app; destruct (N.ltb_spec (N.of_nat (length bs + length ys)) n); [lia|].
  rewrite firstn_app, skipn_app.
  replace (N.to_nat n - length bs)%nat with 0%nat by lia; cbn [firstn skipn].
  rewrite app_nil_r; reflexivity.
Qed.

Ltac ext_inv H :=
  apply bind_ok_inv in H;
  let a := fresh "a" in let r := fresh "r" in let Hm := fresh "Hm" in
  destruct H as [[a r] [Hm H]]; cbv beta iota in H.

Lemma dec_str_ext : dec_extends dec_str dec_str.
Proof.
  intros bs x r ys H; unfold dec_str in *.
  ext_inv H; ext_inv H.
  rewrite (dec_u64_ext _ _ _ ys Hm); cbn [bind].
  rewrite (take_exact_ext _ _ _ _ ys Hm0); cbn [bind].
  injection H as <- <-; reflexivity.
Qed.

Lemma dec_value_type_ext : dec_extends dec_value_type dec_value_type.
Proof.
  intros bs x r ys H; destruct bs as [|b r0]; [discriminate|].
  cbn [app]; unfold dec_value_type in *.
  destruct (cat_of_code _); [|discriminate].
  ext_inv H; rewrite (dec_u64_ext _ _ _ ys Hm); cbn [bind].
  injection H as <- <-; reflexivity.
Qed.

Lemma dec_many_ext {A} (d d' : bytes -> result (A * bytes)) (k : nat) :
  dec_extends d d' -> dec_extends (dec_many d k) (dec_many d' k).
Proof.
  intro Hd; induction k as [|k IH]; intros bs x r ys H; cbn [dec_many] in *.
  - injection H as <- <-; reflexivity.
  - ext_inv H; ext_inv H.
    rewrite (Hd _ _ _ ys Hm); cbn [bind].
    rewrite (IH _ _ _ ys Hm0); cbn [bind].
    injection H as <- <-; reflexivity.
Qed.

Lemma dec_sort_ext (f : nat) :
  forall f', (f <= f')%nat -> dec_extends (dec_sort f) (dec_sort f').
Proof.
  induction f as [|f IH]; intros f' Hf bs x r ys H; [discriminate|].
  destruct f' as [|f']; [lia|].
  destruct bs as [|b r0]; [discriminate|].
  cbn [dec_sort app] in *.
  destruct b; cbv iota in H |- *; try discriminate.
  - ext_inv H; rewrite (dec_str_ext _ _ _ ys Hm); cbn [bind].
    injection H as <- <-; reflexivity.
  - ext_inv H; ext_inv H; ext_inv H; ext_inv H.
    rewrite (dec_str_ext _ _ _ ys Hm); cbn [bind].
    rewrite (dec_value_type_ext _ _ _ ys Hm0); cbn [bind].
    rewrite (dec_u64_ext _ _ _ ys Hm1); cbn [bind].
    rewrite (dec_many_ext _ _ _ (IH f' ltac:(lia)) _ _ _ ys Hm2); cbn [bind].
    injection H as <- <-; reflexivity.
Qed.

Lemma dec_sorts_ext (f f' : nat) :
  (f <= f')%nat -> dec_extends (dec_sorts f) (dec_sorts f').
Proof.
  intros Hf bs x r ys H; unfold dec_sorts in *.
  ext_inv H.
  rewrite (dec_u64_ext _ _ _ ys Hm); cbn [bind].
  exact (dec_many_ext _ _ _ (dec_sort_ext f f' Hf) _ _ _ ys H).
Qed.

Lemma dec_symbol_ext (f f' : nat) :
  (f <= f')%nat -> dec_extends (dec_symbol f) (dec_symbol f').
Proof.
  intros Hf bs x r ys H; unfold dec_symbol in *.
  ext_inv H; ext_inv H; ext_inv H; ext_inv H.
  rewrite (dec_str_ext _ _ _ ys Hm); cbn [bind].
  rewrite (dec_sorts_ext _ _ Hf _ _ _ ys Hm0); cbn [bind].
  rewrite (dec_sorts_ext _ _ Hf _ _ _ ys Hm1); cbn [bind].
  destruct r2 as [|b r5]; [discriminate|]; cbn [app].
  destruct b; cbv iota in Hm2 |- *; try discriminate.
  - injection Hm2 as <- <-; cbn [bind]; injection H as <- <-; reflexivity.
  - ext_inv Hm2; rewrite (dec_sort_ext f f' Hf _ _ _ ys Hm3); cbn [bind].
    injection Hm2 as <- <-; cbn [bind]; injection H as <- <-; reflexivity.
Qed.

Lemma dec_pattern_ext (f : nat) :
  forall f', (f <= f')%nat -> dec_extends (dec_pattern f) (dec_pattern f').
Proof.
  induction f as [|f IH]; intros f' Hf bs x r ys H; [discriminate|].
  destruct f' as [|f']; [lia|].
  assert (Hf' : (f <= f')%nat) by lia.
  destruct bs as [|b r0]; [discriminate|].
  cbn [dec_pattern app] in *.
  destruct b; cbv iota in H |- *; try discriminate.
  - ext_inv H; ext_inv H.
    rewrite (dec_symbol_ext _ _ Hf' _ _ _ ys Hm); cbn [bind].
    rewrite (dec_u64_ext _ _ _ ys Hm0); cbn [bind].
    destruct (negb _); [discriminate|].
    ext_inv H.
    rewrite (dec_many_ext _ _ _ (IH f' Hf') _ _ _ ys Hm1); cbn [bind].
    injection H as <- <-; reflexivity.
  - ext_inv H; rewrite (dec_str_ext _ _ _ ys Hm); cbn [bind].
    injection H as <- <-; reflexivity.
  - ext_inv H; ext_inv H.
    rewrite (dec_str_ext _ _ _ ys Hm); cbn [bind].
    rewrite (dec_sort_ext _ _ Hf' _ _ _ ys Hm0); cbn [bind].
    injection H as <- <-; reflexivity.
Qed.

(** A strict prefix of a pattern's encoding is not a pattern body. *)
Lemma read_body_strict_prefix (v : binary_version) (p : pattern) (xs ys : bytes) :
  wf_pattern p = true -> xs ++ ys = enc_pattern p -> ys <> [] ->
  exists e, read_body v xs = Err e /\ decoder_error e.
Proof.
  intros Hwf He Hne.
  destruct (read_body v xs) as [q|e] eqn:Hr.
  - exfalso; unfold read_body in Hr.
    apply bind_ok_inv in Hr as [[q' r] [Hd Hr]]; cbv beta iota in Hr.
    destruct r as [|b r]; [|discriminate]; injection Hr as ->.
    assert (Hf : (S (length xs) <= S (length (enc_pattern p)))%nat)
      by (rewrite <- He, length_app; lia).
    pose proof (dec_pattern_ext _ _ Hf _ _ _ ys Hd) as E1.
    pose proof (dec_pattern_enc p Hwf (S (length (enc_pattern p))) [] ltac:(lia)) as E2.
    rewrite app_nil_r in E2; rewrite He, E2 in E1; cbn [app] in E1.
    injection E1 as _ E1; exact (Hne (eq_sym E1)).
  - exists e; split; [reflexivity|].
    assert (Hq : err_in decoder_error (read_body v xs))
      by (apply read_body_err_in; intros; exact I).
    exact (Hq e Hr).
Qed.

(** ** What [read_from] and [serialize] do beyond the claims *)

(** [read_pattern_from_file] only rejects versions below 1.2.0 (source lines
    90-98): a frame written with any later version is read, and the cursor
    ends right after its body. *)
Theorem read_from_accepts_later_versions (p : pattern) (v : binary_version)
  (buf rest : bytes) (pos : nat) :
  wf_pattern p = true ->
  fits_u64 (N.of_nat (length (enc_pattern p))) = true ->
  version_fits v = true -> version_ltb v version_1_2_0 = false ->
  skipn pos buf = magic_header ++ version_bytes v
                  ++ u64 (N.of_nat (length (enc_pattern p))) ++ enc_pattern p ++ rest ->
  read_pattern_from_file bytes_io bytes_io_read (FileLike (mk_bytes_io buf pos))
  = (Ok p, FileLike (mk_bytes_io buf (pos + 19 + length (enc_pattern p)))).
Proof.
  intros Hwf Hfit Hv Hlt Hs.
  pose proof (enc_pattern_nonempty p) as Hne.
  rewrite (rpf_bytes_io_frame v _ buf _ pos Hv Hlt Hfit) by first [exact Hs | lia].
  rewrite Nat2N.id, firstn_app, Nat.sub_diag, firstn_all; cbn [firstn].
  rewrite app_nil_r, read_body_enc by exact Hwf; reflexivity.
Qed.

(** [read(size)] (source line 110) is not checked against [size]: a size field
    larger than the bytes left still reads the pattern when the rest of the
    stream is exactly its body, and the cursor ends at the end of the buffer.
    The size stays below 2^63, where [BytesIO.read] raises [OverflowError]. *)
Theorem read_from_oversized_size_field (p : pattern) (v : binary_version) (n : N)
  (buf : bytes) (pos : nat) :
  wf_pattern p = true ->
  version_fits v = true -> version_ltb v version_1_2_0 = false ->
  fits_u64 n = true -> n < 2 ^ 63 -> N.of_nat (length (enc_pattern p)) <= n ->
  skipn pos buf = magic_header ++ version_bytes v ++ u64 n ++ enc_pattern p ->
  read_pattern_from_file bytes_io bytes_io_read (FileLike (mk_bytes_io buf pos))
  = (Ok p, FileLike (mk_bytes_io buf (length buf))).
Proof.
  intros Hwf Hv Hlt Hfit _ Hle Hs.
  pose proof (enc_pattern_nonempty p) as Hne.
  rewrite (rpf_bytes_io_frame v n buf _ pos Hv Hlt Hfit) by first [exact Hs | lia].
  rewrite firstn_all2 by lia.
  rewrite read_body_enc by exact Hwf.
  assert (L : length (skipn pos buf) = (19 + length (enc_pattern p))%nat).
  { rewrite Hs, !length_app, version_bytes_length, u64_length.
    change (length magic_header) with 5%nat; lia. }
  rewrite length_skipn in L.
  replace (pos + 19 + length (enc_pattern p))%nat with (length buf) by lia.
  reflexivity.
Qed.

(** [serialize] defaults to [emit_size=false] (source line 301), which leaves
    the size field 0; [read_from] (source lines 100-108) rejects such a frame
    with the missing-size error after reading 19 bytes, whatever the pattern. *)
Theorem serialize_default_rejected_by_read_from (p : pattern) (buf rest : bytes)
  (pos : nat) :
  skipn pos buf = Pattern_serialize p false ++ rest ->
  read_pattern_from_file bytes_io bytes_io_read (FileLike (mk_bytes_io buf pos))
  = (Err (InvalidArgument missing_size_msg), FileLike (mk_bytes_io buf (pos + 19))).
Proof.
  intro Hs; rewrite Pattern_serialize_layout in Hs; rewrite <- !app_assoc in Hs.
  destruct (bytes_io_read_prefix buf magic_header _ pos 5 Hs eq_refl) as [R1 S1].
  destruct (bytes_io_read_prefix buf (version_bytes current_version) _ _ 6 S1
              (eq_sym (version_bytes_length _))) as [R2 S2].
  destruct (bytes_io_read_prefix buf (u64 0) _ _ 8 S2 (eq_sym (u64_length _)))
    as [R3 S3].
  assert (HV : read_version (version_bytes current_version) = Ok (version_1_2_0, []))
    by reflexivity.
  rewrite (rpf_missing_size _ _ _ _ _ R1 _ _ R2 _ _ HV _ _ R3 eq_refl eq_refl eq_refl).
  rewrite version_bytes_length, u64_length.
  change (length magic_header) with 5%nat.
  replace (pos + 5 + 6 + 8)%nat with (pos + 19)%nat by lia; reflexivity.
Qed.

(** The output of [serialize] with its default [emit_size=false] is read back
    by [deserialize] (source lines 289-310), for either [strip_raw_term], and
    with no bound on the body size. *)
Theorem deserialize_serialize_default (p : pattern) (strip : bool) :
  wf_pattern p = true ->
  Pattern_deserialize (Pattern_serialize p false) strip
  = Ok (if strip then strip_raw_term p else p).
Proof.
  intro Hwf; unfold Pattern_deserialize; rewrite Pattern_serialize_layout.
  cbv iota; rewrite deserialize_pattern_framed by reflexivity.
  cbn [N.eqb bind]; rewrite read_body_enc by exact Hwf; reflexivity.
Qed.

(** [read(5)] and [read(6)] (source lines 83 and 90) are not checked for short
    reads: a stream that ends within the first 11 bytes, with every byte it
    has of the first five matching the magic header (an empty stream
    included), passes the header check and fails in [read_version] with its
    truncation error, not with the bad-header error; the cursor ends at the
    end of the buffer. *)
Theorem read_from_truncated_header (buf : bytes) (pos : nat) :
  (length buf < pos + 11)%nat ->
  std_equal (firstn 5 (skipn pos buf)) magic_header = true ->
  read_pattern_from_file bytes_io bytes_io_read (FileLike (mk_bytes_io buf pos))
  = (Err (FormatError "truncated version"),
     FileLike (mk_bytes_io buf (Nat.max pos (length buf)))).
Proof.
  intros Hl Hh.
  cbn [read_pattern_from_file]; unfold bytes_io_read; cbn [bio_pos bio_buf].
  change (N.to_nat 5) with 5%nat; change (N.to_nat 6) with 6%nat.
  rewrite Hh; cbn [negb].
  rewrite read_version_short.
  - rewrite !length_firstn, !length_skipn.
    replace (pos + Nat.min 5 (length buf - pos)
             + Nat.min 6 (length buf - (pos + Nat.min 5 (length buf - pos))))%nat
      with (Nat.max pos (length buf)) by lia.
    reflexivity.
  - rewrite length_firstn, length_skipn, length_firstn, length_skipn; lia.
Qed.

(** The body read [read(size)] (source line 110) is not checked for a short
    read: when the stream ends inside the body of a frame, the decoder gets the
    bytes that are there and [read_from] fails with a decoder error (it never
    returns a pattern), with the cursor at the end of the buffer.  The size
    stays below 2^63, where [BytesIO.read] raises [OverflowError]. *)
Theorem read_from_truncated_body (p : pattern) (v : binary_version)
  (buf xs ys : bytes) (pos : nat) :
  wf_pattern p = true ->
  fits_u64 (N.of_nat (length (enc_pattern p))) = true ->
  N.of_nat (length (enc_pattern p)) < 2 ^ 63 ->
  version_fits v = true -> version_ltb v version_1_2_0 = false ->
  xs ++ ys = enc_pattern p -> ys <> [] ->
  skipn pos buf = magic_header ++ version_bytes v
                  ++ u64 (N.of_nat (length (enc_pattern p))) ++ xs ->
  exists e, read_pattern_from_file bytes_io bytes_io_read (FileLike (mk_bytes_io buf pos))
            = (Err e, FileLike (mk_bytes_io buf (length buf)))
            /\ decoder_error e.
Proof.
  intros Hwf Hfit _ Hv Hlt He Hne Hs.
  pose proof (enc_pattern_nonempty p) as Hpos.
  assert (Hle : (length xs <= length (enc_pattern p))%nat)
    by (rewrite <- He, length_app; lia).
  rewrite (rpf_bytes_io_frame v _ buf _ pos Hv Hlt Hfit) by first [exact Hs | lia].
  rewrite firstn_all2 by lia.
  destruct (read_body_strict_prefix v p xs ys Hwf He Hne) as [e [Hr He']].
  exists e; split; [|exact He'].
  rewrite Hr.
  assert (L : length (skipn pos buf) = (19 + length xs)%nat).
  { rewrite Hs, !length_app, version_bytes_length, u64_length.
    change (length magic_header) with 5%nat; lia. }
  rewrite length_skipn in L.
  replace (pos + 19 + length xs)%nat with (length buf) by lia.
  reflexivity.
Qed.

(** The errors of [read_from] (source lines 73-113) on a file-like object
    whose [read] returns bytes objects and raises nothing are its three
    [std::invalid_argument]s and the decoders' format and arity errors; the
    [py::type_error] of line 75 is only raised without a [read] attribute. *)
Theorem read_from_error_kinds (source : Type) (read : source -> N -> bytes * source)
  (s0 : source) (e : error) :
  fst (read_pattern_from_file source read (FileLike s0)) = Err e ->
  e = InvalidArgument bad_header_msg \/ e = InvalidArgument old_version_msg
  \/ e = InvalidArgument missing_size_msg \/ decoder_error e.
Proof.
  cbn [read_pattern_from_file].
  destruct (read s0 5) as [header s1].
  destruct (negb _); cbn [fst]; [intro E; injection E as <-; auto|].
  destruct (read s1 6) as [vb s2]; destruct (read_version vb) as [[v vr]|e'] eqn:Ev;
    cbn [fst].
  2: { intro E; injection E as ->; right; right; right.
       assert (Hq : err_in decoder_error (read_version vb))
         by (apply read_version_err_in; intros; exact I).
       exact (Hq _ Ev). }
  destruct (version_ltb v version_1_2_0); cbn [fst]; [intro E; injection E as <-; auto|].
  destruct (read s2 8) as [sb s3]; destruct (_ =? 0); cbn [fst];
    [intro E; injection E as <-; auto|].
  destruct (read s3 _) as [b s4]; cbn [fst]; intro E; right; right; right.
  assert (Hq : err_in decoder_error (read_body v b))
    by (apply read_body_err_in; intros; exact I).
  exact (Hq _ E).
Qed.


(** ** Witnesses of the further properties *)

(** [p1] written with version 1.3.0 and one more byte after it. *)
Lemma read_from_accepts_later_versions_witness :
  read_pattern_from_file bytes_io bytes_io_read
    (FileLike (mk_bytes_io
       (magic_header ++ version_bytes (mk_version 1 3 0)
        ++ u64 (N.of_nat (length (enc_pattern p1))) ++ enc_pattern p1 ++ [x00]) 0))
  = (Ok p1, FileLike (mk_bytes_io
       (magic_header ++ version_bytes (mk_version 1 3 0)
        ++ u64 (N.of_nat (length (enc_pattern p1))) ++ enc_pattern p1 ++ [x00])
       (0 + 19 + length (enc_pattern p1)))).
Proof.
  apply (read_from_accepts_later_versions p1 (mk_version 1 3 0) _ [x00] 0);
    vm_compute; reflexivity.
Defined.

(** [p1] behind a size field five bytes too large, at the end of the stream. *)
Lemma read_from_oversized_size_field_witness :
  read_pattern_from_file bytes_io bytes_io_read
    (FileLike (mk_bytes_io
       (magic_header ++ version_bytes current_version
        ++ u64 (N.of_nat (length (enc_pattern p1)) + 5) ++ enc_pattern p1) 0))
  = (Ok p1, FileLike (mk_bytes_io
       (magic_header ++ version_bytes current_version
        ++ u64 (N.of_nat (length (enc_pattern p1)) + 5) ++ enc_pattern p1)
       (length (magic_header ++ version_bytes current_version
        ++ u64 (N.of_nat (length (enc_pattern p1)) + 5) ++ enc_pattern p1)))).
Proof.
  apply (read_from_oversized_size_field p1 current_version
           (N.of_nat (length (enc_pattern p1)) + 5) _ 0);
    first [lia | vm_compute; reflexivity].
Defined.

(** [serialize(p1)] with its default, followed by one byte. *)
Lemma serialize_default_rejected_by_read_from_witness :
  read_pattern_from_file bytes_io bytes_io_read
    (FileLike (mk_bytes_io (Pattern_serialize p1 false ++ [x00]) 0))
  = (Err (InvalidArgument missing_size_msg),
     FileLike (mk_bytes_io (Pattern_serialize p1 false ++ [x00]) (0 + 19))).
Proof.
  apply (serialize_default_rejected_by_read_from p1 _ [x00] 0); reflexivity.
Defined.

Lemma deserialize_serialize_default_witness :
  Pattern_deserialize (Pattern_serialize p1 false) true = Ok (strip_raw_term p1).
Proof.
  apply (deserialize_serialize_default p1 true); vm_compute; reflexivity.
Defined.

(** The missing-size error of [serialize(p1)] read back by [read_from]. *)
Lemma read_from_error_kinds_witness :
  let e := InvalidArgument missing_size_msg in
  e = InvalidArgument bad_header_msg \/ e = InvalidArgument old_version_msg
  \/ e = InvalidArgument missing_size_msg \/ decoder_error e.
Proof.
  apply (read_from_error_kinds bytes_io bytes_io_read
           (mk_bytes_io (Pattern_serialize p1 false) 0)).
  vm_compute; reflexivity.
Defined.

(** A stream holding the first three bytes of the magic header only. *)
Lemma read_from_truncated_header_witness :
  read_pattern_from_file bytes_io bytes_io_read
    (FileLike (mk_bytes_io [x7f; x4b; x4f] 0))
  = (Err (FormatError "truncated version"),
     FileLike (mk_bytes_io [x7f; x4b; x4f] (Nat.max 0 (length [x7f; x4b; x4f])))).
Proof.
  apply (read_from_truncated_header [x7f; x4b; x4f] 0); vm_compute;
    first [reflexivity | lia].
Defined.

(** The frame of [p1] cut after ten body bytes. *)
Lemma read_from_truncated_body_witness :
  exists e,
    read_pattern_from_file bytes_io bytes_io_read
      (FileLike (mk_bytes_io
         (magic_header ++ version_bytes current_version
          ++ u64 (N.of_nat (length (enc_pattern p1))) ++ firstn 10 (enc_pattern p1)) 0))
    = (Err e, FileLike (mk_bytes_io
         (magic_header ++ version_bytes current_version
          ++ u64 (N.of_nat (length (enc_pattern p1))) ++ firstn 10 (enc_pattern p1))
         (length (magic_header ++ version_bytes current_version
          ++ u64 (N.of_nat (length (enc_pattern p1))) ++ firstn 10 (enc_pattern p1)))))
    /\ decoder_error e.
Proof.
  apply (read_from_truncated_body p1 current_version _ (firstn 10 (enc_pattern p1))
           (skipn 10 (enc_pattern p1)) 0);
    first [vm_compute; reflexivity | intro E; vm_compute in E; discriminate].
Defined.
